(** * cpp-utils: integer ranges ([range.hpp]) and lock-step iteration ([zip.hpp])

    A shallow embedding of the two headers of namespace [util] and the
    properties of their iteration protocols.

    - [Range<IntegerType>] and its nested [Iterator] / [Const_Iterator]
      become records over [Z]; every arithmetic step writes out the
      conversions C++ performs between [IntegerType] and [std::size_t].
    - [zip_iterator<Args...>] is a heterogeneous tuple indexed by the list
      of wrapped container types; the private member templates that peel
      the parameter pack [A, B...] become recursions over that list. *)

From Stdlib Require Import ZArith NArith Lia Bool String.
From Stdlib Require Import Zdivisibility.
From stdpp Require Import base list list_numbers.

Local Open Scope Z_scope.

(** ** Integer types

    The integer types [Range] can be instantiated with, on an LP64 target
    ([std::size_t] is [unsigned long], 64 bits). *)

Inductive IntegerType : Set :=
| signed_char | unsigned_char
| short | unsigned_short
| int | unsigned_int
| long | size_t.

Definition bits (T : IntegerType) : Z :=
  match T with
  | signed_char | unsigned_char => 8
  | short | unsigned_short => 16
  | int | unsigned_int => 32
  | long | size_t => 64
  end.

Definition is_signed (T : IntegerType) : bool :=
  match T with
  | signed_char | short | int | long => true
  | unsigned_char | unsigned_short | unsigned_int | size_t => false
  end.

Definition modulus (T : IntegerType) : Z := 2 ^ bits T.

Definition min_value (T : IntegerType) : Z :=
  if is_signed T then - 2 ^ (bits T - 1) else 0.

Definition max_value (T : IntegerType) : Z :=
  if is_signed T then 2 ^ (bits T - 1) - 1 else 2 ^ bits T - 1.

(** The values an object of type [T] can hold. *)
Definition in_range (T : IntegerType) (z : Z) : Prop :=
  min_value T <= z <= max_value T.

(** Integral conversion to [T]: the unique value of [T] congruent to [z]
    modulo [2 ^ bits T].  The language fixes this result for an unsigned
    [T], and since C++20 for a signed one; before, the signed result is
    implementation-defined, and the implementations reduce modulo
    [2 ^ bits T] as well. *)
Definition convert (T : IntegerType) (z : Z) : Z :=
  if is_signed T
  then (z + 2 ^ (bits T - 1)) mod modulus T - 2 ^ (bits T - 1)
  else z mod modulus T.

(** [std::ptrdiff_t], the [difference_type] of the standard iterators:
    the signed type as wide as [std::size_t]. *)
Definition ptrdiff_t : IntegerType := long.

(** An lvalue of type [V] inside an object of type [S]: what a returned
    [V&] lets the caller do, read the designated sub-object and write it. *)
Record lvalue (S V : Type) : Type := Lvalue {
  load : S -> V;
  store : S -> V -> S
}.
Arguments Lvalue {S V} _ _.
Arguments load {S V} _ _.
Arguments store {S V} _ _ _.

(** ** [class Range] *)

Module Range.

(** *** [class Range::Iterator] *)
Module Iterator.

Record t : Set := mk { _val : Z; _pace : Z }.

(** [Iterator() {}] with the default member initialisers. *)
Definition default : t := mk 0 1.

(** [Iterator(IntegerType val, IntegerType pace = 1)] with [pace]
    left out. *)
Definition of_val (val : Z) : t := mk val 1.

(** [this->name]: member access by name. The data members of the class
    are [_val] and [_pace]; no other name designates one. *)
Definition this_arrow (name : string) (this : t) : option Z :=
  if String.eqb name "_val" then Some (_val this)
  else if String.eqb name "_pace" then Some (_pace this)
  else None.

Section Operators.
Variable T : IntegerType.

(** The non-const dereference operator, [{return _val;}], of result
    type [IntegerType&]. *)
Definition deref : lvalue t Z :=
  Lvalue _val (fun this v => mk v (_pace this)).

(** The const dereference operator, [{return this->_val;}], of result
    type [IntegerType]. *)
Definition deref_const (this : t) : option Z := this_arrow "_val" this.

(** [_val += n*_pace]: [n] is a [std::size_t], so [_pace] and then
    [_val] are converted to [std::size_t], the product and the sum
    are taken there, and the result is converted back on
    assignment. *)
Definition plus_eq (this : t) (n : N) : t :=
  let product := convert size_t (Z.of_N n * convert size_t (_pace this)) in
  let sum := convert size_t (convert size_t (_val this) + product) in
  mk (convert T sum) (_pace this).

(** [Iterator& operator++()]: returns [this += 1]. *)
Definition pre_incr (this : t) : t := plus_eq this 1%N.

(** [operator++(int)]: the returned copy, then the new state of
    the operand. *)
Definition post_incr (this : t) : t * t :=
  let tmp := this in
  let this' := pre_incr this in
  (tmp, this').

(** [friend Iterator operator+(Iterator lhs, const std::size_t& n)] *)
Definition plus (lhs : t) (n : N) : t := plus_eq lhs n.

(** [_val -= n*_pace] *)
Definition minus_eq (this : t) (n : N) : t :=
  let product := convert size_t (Z.of_N n * convert size_t (_pace this)) in
  let difference := convert size_t (convert size_t (_val this) - product) in
  mk (convert T difference) (_pace this).

(** [Iterator& operator--()]: returns [this -= 1]. *)
Definition pre_decr (this : t) : t := minus_eq this 1%N.

(** [operator--(int)] *)
Definition post_decr (this : t) : t * t :=
  let tmp := this in
  let this' := pre_decr this in
  (tmp, this').

(** [friend Iterator operator-(Iterator lhs, const std::size_t& n)] *)
Definition minus (lhs : t) (n : N) : t := minus_eq lhs n.
End Operators.

Definition eq (this o : t) : bool := _val this =? _val o.
Definition ne (this o : t) : bool := negb (eq this o).
Definition lt (this o : t) : bool := _val this <? _val o.
Definition gt (this o : t) : bool := lt o this.
Definition ge (this o : t) : bool := negb (lt this o).
Definition le (this o : t) : bool := negb (lt o this).

End Iterator.

(** *** [class Range::Const_Iterator : public Iterator] *)
Module Const_Iterator.

(** The class adds no data member and inherits the constructors. *)
Definition t : Set := Iterator.t.

(** The dereference operator the derived class declares,
    [{return this->val;}] of result type [const IntegerType&]; it
    hides both dereference operators of the base class. *)
Definition deref (this : t) : option Z := Iterator.this_arrow "val" this.

End Const_Iterator.

Record t : Set := mk { _start : Z; _end : Z; _pace : Z }.

(** [Range(const T& iterable)]: delegates to
    [Range(0, std::distance(iterable.begin(), iterable.end()), 1)]. *)
Definition of_iterable (T : IntegerType) {V : Type} (iterable : list V) : t :=
  mk 0 (convert T (Z.of_nat (length iterable))) 1.

(** [begin()] and [end()] of a non-const [Range].  The const overloads
    return the same [Iterator{...}] expression as a [Const_Iterator], a
    conversion the class does not have. *)
Definition begin (r : t) : Iterator.t := Iterator.mk (_start r) (_pace r).

Definition end_ (r : t) : Iterator.t := Iterator.mk (_end r) (_pace r).

(** [return --end();] *)
Definition rbegin (T : IntegerType) (r : t) : Iterator.t :=
  Iterator.pre_decr T (end_ r).

(** [return --begin();] *)
Definition rend (T : IntegerType) (r : t) : Iterator.t :=
  Iterator.pre_decr T (begin r).

(** A loop [for (it = first; it != last; step it)] that dereferences
    [it] in its body, run for at most [fuel] evaluations of the
    condition; the result lists the values read. [None]: the condition
    was still true when the fuel ran out. *)
Fixpoint drive (step : Iterator.t -> Iterator.t) (fuel : nat)
    (first last : Iterator.t) : option (list Z) :=
  match fuel with
  | O => None
  | S fuel' =>
      if Iterator.ne first last
      then cons (load Iterator.deref first) <$> drive step fuel' (step first) last
      else Some []
  end.

(** The value read at the [j]-th turn of a loop started at [first], and
    the values read at the first [k] turns. *)
Definition value_at (step : Iterator.t -> Iterator.t) (first : Iterator.t)
    (j : nat) : Z :=
  Iterator._val (Nat.iter j step first).

Definition values (step : Iterator.t -> Iterator.t) (first : Iterator.t)
    (k : nat) : list Z :=
  value_at step first <$> seq 0 k.

(** [for (IntegerType i : r)]: the range-based [for] statement takes
    [r.begin()] and [r.end()] once and steps with the prefix [++]. *)
Definition for_each (T : IntegerType) (fuel : nat) (r : t) : option (list Z) :=
  drive (Iterator.pre_incr T) fuel (begin r) (end_ r).

(** The hand-written loop
    [for (auto it = r.rbegin(); it != r.rend(); ++it)]. *)
Definition for_each_reverse (T : IntegerType) (fuel : nat) (r : t) : option (list Z) :=
  drive (Iterator.pre_incr T) fuel (rbegin T r) (rend T r).

(** The hand-written loop
    [for (auto it = r.rbegin(); it != r.rend(); --it)]. *)
Definition for_each_backward (T : IntegerType) (fuel : nat) (r : t) : option (list Z) :=
  drive (Iterator.pre_decr T) fuel (rbegin T r) (rend T r).

(** The loop reaches its end: some amount of fuel suffices. *)
Definition terminates (T : IntegerType) (r : t) : Prop :=
  exists fuel, is_Some (for_each T fuel r).

End Range.

(** [range(start, end, pace = 1)] *)
Definition range (start end_ pace : Z) : Range.t := Range.mk start end_ pace.

(** [range(end)] *)
Definition range_to (end_ : Z) : Range.t := Range.mk 0 end_ 1.

(** [iter_range(it)] *)
Definition iter_range (T : IntegerType) {V : Type} (it : list V) : Range.t :=
  Range.of_iterable T it.

(** ** [zip.hpp] *)

Module Zip.

(** What [zip] needs from a wrapped container type [A] and from the
    iterators of [A].  [iterator] and [reference] are the types
    [iterator_extractor<A>] and [reference_extractor<A>] pick (the
    const flavour when [A] is const-qualified); an [iterator] is asked
    for a default constructor, [it + n], the prefix [--], [==], [!=] and
    the dereference, which returns a [reference] into the container. *)
Record Iterable : Type := {
  container : Type;
  iterator : Type;
  reference : Type;
  value_type : Type;
  it_default : iterator;
  c_begin : container -> iterator;
  c_end : container -> iterator;
  it_plus : iterator -> N -> iterator;
  it_pre_decr : iterator -> iterator;
  it_eq : iterator -> iterator -> bool;
  it_ne : iterator -> iterator -> bool;
  it_deref : iterator -> reference;
  ref_load : container -> reference -> option value_type;
  ref_store : container -> reference -> value_type -> option container
}.

(** [type_extractor_tuple<type_extractor, A, B...>::type]: the
    [std::tuple] of the extracted types, in the order of the pack.  The
    empty pack gives [std::tuple<>], the result of the last unfolding of
    the private templates below; [zip] itself needs one container at
    least. *)
Fixpoint type_extractor_tuple (type_extractor : Iterable -> Type)
    (Args : list Iterable) : Type :=
  match Args with
  | [] => unit
  | A :: B => (type_extractor A * type_extractor_tuple type_extractor B)%type
  end.

Definition iterator_type_tuple := type_extractor_tuple iterator.
Definition reference_type_tuple := type_extractor_tuple reference.

(** [std::get<Idx>]: a position in the pack that knows the type found
    there. *)
Inductive index (A : Iterable) : list Iterable -> Type :=
| index_here (B : list Iterable) : index A (A :: B)
| index_next (A' : Iterable) (B : list Iterable) : index A B -> index A (A' :: B).
Arguments index_here {A} B.
Arguments index_next {A} A' {B} _.

Fixpoint Idx {A Args} (i : index A Args) : nat :=
  match i with
  | index_here _ => O
  | index_next _ i' => S (Idx i')
  end.

Fixpoint get {F : Iterable -> Type} {A Args} (i : index A Args)
    : type_extractor_tuple F Args -> F A :=
  match i in index _ Args return type_extractor_tuple F Args -> F A with
  | index_here _ => fun t => fst t
  | index_next _ i' => fun t => get i' (snd t)
  end.

(** [std::get<Idx>(t) = x] *)
Fixpoint set {F : Iterable -> Type} {A Args} (i : index A Args) (x : F A)
    : type_extractor_tuple F Args -> type_extractor_tuple F Args :=
  match i in index _ Args
        return type_extractor_tuple F Args -> type_extractor_tuple F Args with
  | index_here _ => fun t => (x, snd t)
  | index_next _ i' => fun t => (fst t, set i' x (snd t))
  end.

(** The components of a tuple in their order, each with the pack entry it
    belongs to. *)
Fixpoint components {F : Iterable -> Type} {Args : list Iterable}
    : type_extractor_tuple F Args -> list { A : Iterable & F A } :=
  match Args with
  | [] => fun _ => []
  | A :: B => fun t => existT A (fst t) :: components (snd t)
  end.

(** The index [len - sizeof...(B) - 1] that the dereference operator
    and [zip_impl::begin] / [end] compute for the head of the pack
    [A, B...] they are unfolded at. *)
Definition head_index (len : nat) (B : list Iterable) : nat :=
  (len - length B - 1)%nat.

(** *** [class zip_iterator<Args...>]

    The class derives from [iterator_type_tuple<Args...>::type].  Each
    private member template [op<Idx, A, B...>] works on component [Idx]
    of the tuple, whose type is that of [A], and hands the components
    after it to [op<Idx+1, B...>]; it is a recursion over the part of
    the tuple that starts at [Idx]. *)
Definition zip_iterator (Args : list Iterable) : Type := iterator_type_tuple Args.
Definition reference_tuple (Args : list Iterable) : Type := reference_type_tuple Args.

(** [operator+=<Idx, A, B...>(n)]: the later components first, then
    [std::get<Idx>(this) = std::get<Idx>(this) + n]. *)
Fixpoint plus_eq_pack (pack : list Iterable)
    : zip_iterator pack -> N -> zip_iterator pack :=
  match pack with
  | [] => fun this _ => this
  | A :: B => fun this n =>
      let rest := plus_eq_pack B (snd this) n in
      (it_plus A (fst this) n, rest)
  end.

(** [operator--<Idx, A, B...>()]: the later components first, then
    [--std::get<Idx>(this)]. *)
Fixpoint pre_decr_pack (pack : list Iterable)
    : zip_iterator pack -> zip_iterator pack :=
  match pack with
  | [] => fun this => this
  | A :: B => fun this =>
      let rest := pre_decr_pack B (snd this) in
      (it_pre_decr A (fst this), rest)
  end.

(** The private dereference template: a one-element tuple [temp] for the
    head of the pack, [std::tuple_cat]'ed with the result for [B...]. *)
Fixpoint deref_pack (pack : list Iterable)
    : zip_iterator pack -> reference_tuple pack :=
  match pack with
  | [] => fun _ => tt
  | A :: B => fun this =>
      let temp := it_deref A (fst this) in
      (temp, deref_pack B (snd this))
  end.

(** [operator!=<Idx, A, B...>(other)]: different when all the pairs of
    iterators are different.  No member calls it. *)
Fixpoint ne_pack (pack : list Iterable)
    : zip_iterator pack -> zip_iterator pack -> bool :=
  match pack with
  | [] => fun _ _ => true
  | A :: B => fun this other =>
      it_ne A (fst this) (fst other) && ne_pack B (snd this) (snd other)
  end.

(** [operator==<Idx, A, B...>(other)]: equal when one pair of iterators
    is equal. *)
Fixpoint eq_pack (pack : list Iterable)
    : zip_iterator pack -> zip_iterator pack -> bool :=
  match pack with
  | [] => fun _ _ => false
  | A :: B => fun this other =>
      it_eq A (fst this) (fst other) || eq_pack B (snd this) (snd other)
  end.

Section zip_iterator.
Context {Args : list Iterable}.

(** [operator+=(n)]: [operator+=<0, Args...>(n)]. *)
Definition plus_eq (this : zip_iterator Args) (n : N) : zip_iterator Args :=
  plus_eq_pack Args this n.

(** Prefix [++]: [this += 1]. *)
Definition pre_incr (this : zip_iterator Args) : zip_iterator Args :=
  plus_eq this 1%N.

(** Prefix [--]: [operator--<0, Args...>()]. *)
Definition pre_decr (this : zip_iterator Args) : zip_iterator Args :=
  pre_decr_pack Args this.

(** The loop of [operator-=]:
    [for (std::size_t i = 0; i < n; ++i) --this]. *)
Fixpoint minus_eq_loop (fuel : nat) (i n : N) (this : zip_iterator Args)
    : zip_iterator Args :=
  match fuel with
  | O => this
  | S fuel' =>
      if (i <? n)%N
      then minus_eq_loop fuel' (i + 1)%N n (pre_decr this)
      else this
  end.

(** [operator-=(n)]; the loop tests its condition [n + 1] times. *)
Definition minus_eq (this : zip_iterator Args) (n : N) : zip_iterator Args :=
  minus_eq_loop (S (N.to_nat n)) 0%N n this.

(** [friend operator-(it, n)] and [friend operator+(it, n)], on a
    copy of [it]. *)
Definition minus (it : zip_iterator Args) (n : N) : zip_iterator Args :=
  minus_eq it n.
Definition plus (it : zip_iterator Args) (n : N) : zip_iterator Args :=
  plus_eq it n.

(** The public dereference operator. *)
Definition deref (this : zip_iterator Args) : reference_tuple Args :=
  deref_pack Args this.

(** [operator==(other)]: [operator==<0, Args...>(other)]. *)
Definition eq (this other : zip_iterator Args) : bool :=
  eq_pack Args this other.

(** [operator!=(other)]: [! operator==<0, Args...>(other)]. *)
Definition ne (this other : zip_iterator Args) : bool :=
  negb (eq_pack Args this other).
End zip_iterator.

(** *** [struct zip_impl<Args...>] *)

(** [std::tuple<Args&&...> containers]: the wrapped containers
    themselves, not copies; the caller's variables are this tuple. *)
Record zip_impl (Args : list Iterable) : Type := Zip_impl {
  containers : type_extractor_tuple container Args
}.
Arguments Zip_impl {Args} _.
Arguments containers {Args} _.

(** A default-constructed [iterator]. *)
Fixpoint default_iterator (Args : list Iterable) : zip_iterator Args :=
  match Args with
  | [] => tt
  | A :: B => (it_default A, default_iterator B)
  end.

(** [begin<1, A, B...>(begin_it)]: the later components first, then
    the component of [A] is assigned [.begin()] of its container. *)
Fixpoint begin_pack (pack : list Iterable)
    : type_extractor_tuple container pack -> zip_iterator pack -> zip_iterator pack :=
  match pack with
  | [] => fun _ begin_it => begin_it
  | A :: B => fun cs begin_it =>
      let rest := begin_pack B (snd cs) (snd begin_it) in
      (c_begin A (fst cs), rest)
  end.

(** [end<1, A, B...>(end_it)] *)
Fixpoint end_pack (pack : list Iterable)
    : type_extractor_tuple container pack -> zip_iterator pack -> zip_iterator pack :=
  match pack with
  | [] => fun _ end_it => end_it
  | A :: B => fun cs end_it =>
      let rest := end_pack B (snd cs) (snd end_it) in
      (c_end A (fst cs), rest)
  end.

Section zip_impl.
Context {Args : list Iterable}.

Definition begin (z : zip_impl Args) : zip_iterator Args :=
  let begin_it := default_iterator Args in
  begin_pack Args (containers z) begin_it.

Definition end_ (z : zip_impl Args) : zip_iterator Args :=
  let end_it := default_iterator Args in
  end_pack Args (containers z) end_it.

(** A loop [for (; first != last; ++first)] that dereferences [first]
    in its body, run for at most [fuel] evaluations of the condition;
    the result lists the reference tuples the body received. *)
Fixpoint drive (fuel : nat) (first last : zip_iterator Args)
    : option (list (reference_tuple Args)) :=
  match fuel with
  | O => None
  | S fuel' =>
      if ne first last
      then cons (deref first) <$> drive fuel' (pre_incr first) last
      else Some []
  end.

(** [for (auto it : z)] *)
Definition for_each (fuel : nat) (z : zip_impl Args)
    : option (list (reference_tuple Args)) :=
  drive fuel (begin z) (end_ z).
End zip_impl.

(** [zip(containers...)] *)
Definition zip {T : list Iterable} (containers : type_extractor_tuple container T)
    : zip_impl T :=
  Zip_impl containers.

(** Reading every element of a reference tuple.  [None]: one of the
    references designates no element. *)
Fixpoint load_pack (pack : list Iterable)
    : type_extractor_tuple container pack -> reference_tuple pack ->
      option (type_extractor_tuple value_type pack) :=
  match pack with
  | [] => fun _ _ => Some tt
  | A :: B => fun cs refs =>
      match ref_load A (fst cs) (fst refs), load_pack B (snd cs) (snd refs) with
      | Some v, Some vs => Some (v, vs)
      | _, _ => None
      end
  end.

(** [for (auto it : z)] with a body that reads every element of the
    tuple it receives: the tuples of values read. *)
Definition for_each_values {Args : list Iterable} (fuel : nat) (z : zip_impl Args)
    : option (list (type_extractor_tuple value_type Args)) :=
  match for_each fuel z with
  | Some refs => mapM (load_pack Args (containers z)) refs
  | None => None
  end.

(** [std::get<Idx>(refs) = v]: the assignment goes through the
    reference, to the container it designates an element of. *)
Definition assign {A Args} (i : index A Args) (refs : reference_tuple Args)
    (v : value_type A) (cs : type_extractor_tuple container Args)
    : option (type_extractor_tuple container Args) :=
  match ref_store A (get i cs) (get i refs) v with
  | Some c' => Some (set i c' cs)
  | None => None
  end.

(** *** A contiguous standard sequence ([std::vector<V>], [std::array],
    [std::string])

    An iterator is a position counted from the first element, a
    reference the position of the element it designates.  Reading or
    writing outside [0 .. size) is undefined: [None].  A
    default-constructed iterator is singular: it is the [begin()] of no
    container and designates no element; it stands at [-1] here.  In
    [it + n] the offset is of the iterator's [difference_type], so the
    [std::size_t] that [zip_iterator] passes is converted to
    [std::ptrdiff_t] first: an [n] of [2 ^ 63] or more steps backwards. *)
Definition std_vector (V : Type) : Iterable := {|
  container := list V;
  iterator := Z;
  reference := Z;
  value_type := V;
  it_default := -1;
  c_begin := fun _ => 0;
  c_end := fun c => Z.of_nat (length c);
  it_plus := fun it n => it + convert ptrdiff_t (Z.of_N n);
  it_pre_decr := fun it => it - 1;
  it_eq := Z.eqb;
  it_ne := fun it o => negb (it =? o);
  it_deref := fun it => it;
  ref_load := fun c r => if 0 <=? r then c !! Z.to_nat r else None;
  ref_store := fun c r v =>
    if (0 <=? r) && (r <? Z.of_nat (length c))
    then Some (<[Z.to_nat r := v]> c)
    else None
|}.

(** A pack of vectors, and the positions and sizes in it. *)
Definition vectors (Vs : list Type) : list Iterable := map std_vector Vs.

Fixpoint positions (Vs : list Type) : zip_iterator (vectors Vs) -> list Z :=
  match Vs with
  | [] => fun _ => []
  | V :: Vs' => fun it => fst it :: positions Vs' (snd it)
  end.

Fixpoint designated (Vs : list Type) : reference_tuple (vectors Vs) -> list Z :=
  match Vs with
  | [] => fun _ => []
  | V :: Vs' => fun refs => fst refs :: designated Vs' (snd refs)
  end.

Fixpoint sizes (Vs : list Type)
    : type_extractor_tuple container (vectors Vs) -> list nat :=
  match Vs with
  | [] => fun _ => []
  | V :: Vs' => fun cs => length (fst cs) :: sizes Vs' (snd cs)
  end.

End Zip.

(** The least element of a list of lengths, [0] for no list at all. *)
Definition min_list (ns : list nat) : nat :=
  match ns with
  | [] => O
  | n :: ns' => foldr Nat.min n ns'
  end.

(** * Properties *)

(** ** Integer conversions *)

Section Conversions.
Variable T : IntegerType.

Lemma modulus_pos : 0 < modulus T.
Proof. destruct T; reflexivity. Qed.

Lemma modulus_signed : is_signed T = true -> modulus T = 2 * 2 ^ (bits T - 1).
Proof. destruct T; intros H; try discriminate H; reflexivity. Qed.

Lemma modulus_size_t : exists c, modulus size_t = modulus T * c.
Proof.
  destruct T;
    [exists (2 ^ 56) | exists (2 ^ 56) | exists (2 ^ 48) | exists (2 ^ 48)
    | exists (2 ^ 32) | exists (2 ^ 32) | exists 1 | exists 1]; reflexivity.
Qed.

(** A conversion changes its argument by a multiple of the modulus. *)
Lemma convert_diff z : exists q, convert T z = z + modulus T * q.
Proof.
  pose proof modulus_pos as HM. unfold convert.
  destruct (is_signed T).
  - exists (- ((z + 2 ^ (bits T - 1)) / modulus T)).
    pose proof (Z.div_mod (z + 2 ^ (bits T - 1)) (modulus T)). lia.
  - exists (- (z / modulus T)).
    pose proof (Z.div_mod z (modulus T)). lia.
Qed.

Lemma convert_in_range z : in_range T (convert T z).
Proof.
  pose proof modulus_pos as HM. pose proof modulus_signed as HS.
  unfold convert, in_range, min_value, max_value.
  destruct (is_signed T).
  - specialize (HS eq_refl).
    pose proof (Z.mod_pos_bound (z + 2 ^ (bits T - 1)) (modulus T) HM). lia.
  - pose proof (Z.mod_pos_bound z (modulus T) HM). unfold modulus in *. lia.
Qed.

(** Two values of [T] that differ by a multiple of the modulus are the
    same value. *)
Lemma in_range_unique x y q :
  in_range T x -> in_range T y -> x = y + modulus T * q -> x = y.
Proof.
  pose proof modulus_pos as HM. pose proof modulus_signed as HS.
  unfold in_range, min_value, max_value.
  destruct (is_signed T).
  - specialize (HS eq_refl). intros Hx Hy E.
    assert (q = 0) by nia. subst q. lia.
  - unfold modulus in *. intros Hx Hy E.
    assert (q = 0) by nia. subst q. lia.
Qed.

Lemma convert_eq_iff a b :
  convert T a = convert T b <-> exists q, a = b + modulus T * q.
Proof.
  destruct (convert_diff a) as [qa Ha], (convert_diff b) as [qb Hb].
  split.
  - intros E. exists (qb - qa). lia.
  - intros [q E]. apply (in_range_unique _ _ (qa + q - qb)).
    + apply convert_in_range.
    + apply convert_in_range.
    + lia.
Qed.

Lemma convert_id z : in_range T z -> convert T z = z.
Proof.
  intros Hz. destruct (convert_diff z) as [q Hq].
  apply (in_range_unique _ _ q); auto using convert_in_range.
Qed.

End Conversions.

(** The detour through [std::size_t] leaves no trace once the result is
    back in [T]. *)
Lemma convert_via_size_t T z : convert T (convert size_t z) = convert T z.
Proof.
  apply convert_eq_iff.
  destruct (modulus_size_t T) as [c Hc].
  destruct (convert_diff size_t z) as [q Hq].
  exists (c * q). rewrite Hq, Hc. ring.
Qed.

(** ** Stepping a [Range::Iterator] *)

Section Stepping.
Variable T : IntegerType.
Import Range.

Lemma plus_eq_val it n :
  Iterator._val (Iterator.plus_eq T it n)
  = convert T (Iterator._val it + Z.of_N n * Iterator._pace it).
Proof.
  unfold Iterator.plus_eq. cbn [Iterator._val].
  rewrite convert_via_size_t. apply convert_eq_iff.
  destruct (modulus_size_t T) as [c Hc].
  destruct (convert_diff size_t (Iterator._val it)) as [q1 H1].
  destruct (convert_diff size_t (Iterator._pace it)) as [q2 H2].
  rewrite H2.
  destruct (convert_diff size_t
              (Z.of_N n * (Iterator._pace it + modulus size_t * q2))) as [q3 H3].
  rewrite H1, H3, Hc.
  exists (c * (q1 + Z.of_N n * q2 + q3)). ring.
Qed.

Lemma minus_eq_val it n :
  Iterator._val (Iterator.minus_eq T it n)
  = convert T (Iterator._val it - Z.of_N n * Iterator._pace it).
Proof.
  unfold Iterator.minus_eq. cbn [Iterator._val].
  rewrite convert_via_size_t. apply convert_eq_iff.
  destruct (modulus_size_t T) as [c Hc].
  destruct (convert_diff size_t (Iterator._val it)) as [q1 H1].
  destruct (convert_diff size_t (Iterator._pace it)) as [q2 H2].
  rewrite H2.
  destruct (convert_diff size_t
              (Z.of_N n * (Iterator._pace it + modulus size_t * q2))) as [q3 H3].
  rewrite H1, H3, Hc.
  exists (c * (q1 - Z.of_N n * q2 - q3)). ring.
Qed.

Lemma pre_incr_val it :
  Iterator._val (Iterator.pre_incr T it)
  = convert T (Iterator._val it + Iterator._pace it).
Proof.
  unfold Iterator.pre_incr. rewrite plus_eq_val. f_equal. lia.
Qed.

Lemma pre_decr_val it :
  Iterator._val (Iterator.pre_decr T it)
  = convert T (Iterator._val it - Iterator._pace it).
Proof.
  unfold Iterator.pre_decr. rewrite minus_eq_val. f_equal. lia.
Qed.

(** [j] increments from a value of [T] land on [val + j * pace],
    converted. *)
Lemma iter_pre_incr it j :
  in_range T (Iterator._val it) ->
  Nat.iter j (Iterator.pre_incr T) it
  = Iterator.mk (convert T (Iterator._val it + Z.of_nat j * Iterator._pace it))
                (Iterator._pace it).
Proof.
  intros Hit. induction j as [|j IH].
  - destruct it as [v p]. cbn [Nat.iter Iterator._val Iterator._pace] in *.
    replace (v + Z.of_nat 0 * p) with v by lia. now rewrite convert_id.
  - rewrite Nat.iter_succ, IH.
    assert (E : forall x, Iterator.pre_incr T x
                = Iterator.mk (Iterator._val (Iterator.pre_incr T x)) (Iterator._pace x))
      by reflexivity.
    rewrite E, pre_incr_val. cbn [Iterator._val Iterator._pace]. f_equal.
    apply convert_eq_iff.
    destruct (convert_diff T (Iterator._val it + Z.of_nat j * Iterator._pace it)) as [q Hq].
    exists q. rewrite Hq. lia.
Qed.

Lemma iter_pre_decr it j :
  in_range T (Iterator._val it) ->
  Nat.iter j (Iterator.pre_decr T) it
  = Iterator.mk (convert T (Iterator._val it - Z.of_nat j * Iterator._pace it))
                (Iterator._pace it).
Proof.
  intros Hit. induction j as [|j IH].
  - destruct it as [v p]. cbn [Nat.iter Iterator._val Iterator._pace] in *.
    replace (v - Z.of_nat 0 * p) with v by lia. now rewrite convert_id.
  - rewrite Nat.iter_succ, IH.
    assert (E : forall x, Iterator.pre_decr T x
                = Iterator.mk (Iterator._val (Iterator.pre_decr T x)) (Iterator._pace x))
      by reflexivity.
    rewrite E, pre_decr_val. cbn [Iterator._val Iterator._pace]. f_equal.
    apply convert_eq_iff.
    destruct (convert_diff T (Iterator._val it - Z.of_nat j * Iterator._pace it)) as [q Hq].
    exists q. rewrite Hq. lia.
Qed.
End Stepping.

(** ** The driving loop *)

Section Driving.
Import Range.
Variable step : Iterator.t -> Iterator.t.
Local Abbreviation value_at := (Range.value_at step).
Local Abbreviation values := (Range.values step).

Lemma value_at_step first j : value_at (step first) j = value_at first (S j).
Proof. unfold value_at. now rewrite Nat.iter_succ_r. Qed.

Lemma values_S first k :
  values first (S k) = Iterator._val first :: values (step first) k.
Proof.
  unfold values. cbn [seq fmap list_fmap]. f_equal.
  rewrite <- fmap_S_seq, <- list_fmap_compose.
  apply list_fmap_ext. intros i j _. cbn. now rewrite value_at_step.
Qed.

Lemma length_values first k : length (values first k) = k.
Proof. unfold values. now rewrite length_fmap, length_seq. Qed.

(** A loop that ends has read the values before the first one equal to
    that of [last], and no other. *)
Lemma drive_Some fuel first last l :
  drive step fuel first last = Some l ->
  l = values first (length l)
  /\ (length l < fuel)%nat
  /\ value_at first (length l) = Iterator._val last
  /\ forall j, (j < length l)%nat -> value_at first j <> Iterator._val last.
Proof.
  revert first l. induction fuel as [|fuel IH]; intros first l H; [discriminate|].
  cbn [drive] in H. unfold Iterator.ne, Iterator.eq in H.
  destruct (Z.eqb_spec (Iterator._val first) (Iterator._val last)) as [E|E];
    cbn [negb] in H.
  - injection H as <-. cbn. repeat split; auto; try lia.
  - destruct (drive step fuel (step first) last) as [l'|] eqn:D; [|discriminate].
    cbn in H. injection H as <-.
    destruct (IH _ _ D) as (Hl & Hlen & Hend & Hne).
    cbn [length]. rewrite values_S. repeat split.
    + now rewrite <- Hl.
    + lia.
    + now rewrite <- value_at_step.
    + intros [|j] Hj; [exact E|]. rewrite <- value_at_step. apply Hne. lia.
Qed.

(** Conversely, fuel above the first turn at which the value is that of
    [last] is enough. *)
Lemma drive_complete k : forall fuel first last,
  (k < fuel)%nat ->
  (forall j, (j < k)%nat -> value_at first j <> Iterator._val last) ->
  value_at first k = Iterator._val last ->
  drive step fuel first last = Some (values first k).
Proof.
  induction k as [|k IH]; intros fuel first last Hfuel Hne Hend;
    (destruct fuel as [|fuel]; [lia|]); cbn [drive];
    unfold Iterator.ne, Iterator.eq.
  - unfold value_at in Hend. simpl in Hend. rewrite Hend, Z.eqb_refl. reflexivity.
  - specialize (Hne O ltac:(lia)) as H0. unfold value_at in H0. simpl in H0.
    destruct (Z.eqb_spec (Iterator._val first) (Iterator._val last)); [contradiction|].
    cbn [negb]. rewrite (IH fuel (step first) last).
    + now rewrite values_S.
    + lia.
    + intros j Hj. rewrite value_at_step. apply Hne. lia.
    + now rewrite value_at_step.
Qed.

(** The first turn at which a decidable property holds. *)
Lemma first_turn (P : nat -> Prop) (dec : forall j, {P j} + {~ P j}) k :
  P k -> exists k0, (k0 <= k)%nat /\ P k0 /\ forall j, (j < k0)%nat -> ~ P j.
Proof.
  assert (H : forall n,
             (forall j, (j < n)%nat -> ~ P j)
             \/ exists k0, (k0 < n)%nat /\ P k0 /\ forall j, (j < k0)%nat -> ~ P j).
  { induction n as [|n [Hn|(k0 & ? & ? & ?)]].
    - left. intros j Hj. lia.
    - destruct (dec n) as [Hp|Hp].
      + right. exists n. repeat split; auto.
      + left. intros j Hj. destruct (Nat.eq_dec j n) as [->|]; [exact Hp|].
        apply Hn. lia.
    - right. exists k0. repeat split; auto. }
  intros Hk. destruct (H k) as [Hn|(k0 & ? & ? & ?)].
  - exists k. repeat split; auto.
  - exists k0. repeat split; auto. lia.
Qed.
End Driving.

(** ** Loops over a [Range] *)

Section RangeLoops.
Import Range.
Variable T : IntegerType.

Lemma iterator_eq (a b : Iterator.t) :
  Iterator._val a = Iterator._val b -> Iterator._pace a = Iterator._pace b -> a = b.
Proof. destruct a, b. cbn. now intros -> ->. Qed.

Lemma convert_unique a v q : in_range T v -> a = v + modulus T * q -> convert T a = v.
Proof.
  intros Hv E. rewrite <- (convert_id T v Hv). apply convert_eq_iff. eauto.
Qed.

Lemma forward_value_at r j :
  in_range T (_start r) ->
  value_at (Iterator.pre_incr T) (begin r) j
  = convert T (_start r + Z.of_nat j * _pace r).
Proof.
  intros Hs. unfold value_at. now rewrite iter_pre_incr.
Qed.

(** Walking back from [rbegin], when [k] forward steps lead from
    [_start] to [_end]. *)
Lemma backward_value_at r k j :
  convert T (_start r + Z.of_nat k * _pace r) = _end r ->
  value_at (Iterator.pre_decr T) (rbegin T r) j
  = convert T (_start r + (Z.of_nat k - 1 - Z.of_nat j) * _pace r).
Proof.
  intros Hend. unfold value_at, rbegin.
  rewrite iter_pre_decr; rewrite pre_decr_val; [|apply convert_in_range].
  cbn [Iterator._val Iterator._pace end_].
  apply convert_eq_iff.
  destruct (convert_diff T (_end r - _pace r)) as [q1 H1].
  destruct (convert_diff T (_start r + Z.of_nat k * _pace r)) as [q2 H2].
  exists (q1 + q2). rewrite H1, <- Hend, H2.
  change (Iterator._pace (Iterator.pre_decr T (end_ r))) with (_pace r). ring.
Qed.

Lemma rev_values_forward (f : nat -> Z) k :
  rev (f <$> seq 0 k) = (fun i => f (k - 1 - i)%nat) <$> seq 0 k.
Proof.
  rewrite rev_alt. change (rev_append ?l []) with (reverse l).
  apply list_eq. intros i.
  destruct (Nat.lt_ge_cases i k) as [Hi|Hi].
  - rewrite reverse_lookup by (rewrite length_fmap, length_seq; lia).
    rewrite length_fmap, length_seq, !list_lookup_fmap.
    rewrite !lookup_seq_lt by lia. cbn. do 2 f_equal. lia.
  - rewrite !lookup_ge_None_2; auto;
      rewrite ?length_reverse, length_fmap, length_seq; lia.
Qed.

(** Forward iteration ends exactly at the first turn whose value is
    [_end]. *)
Lemma for_each_Some fuel r l :
  in_range T (_start r) ->
  for_each T fuel r = Some l ->
  l = (fun j => convert T (_start r + Z.of_nat j * _pace r)) <$> seq 0 (length l)
  /\ (length l < fuel)%nat
  /\ convert T (_start r + Z.of_nat (length l) * _pace r) = _end r
  /\ forall j, (j < length l)%nat ->
       convert T (_start r + Z.of_nat j * _pace r) <> _end r.
Proof.
  intros Hs H. apply drive_Some in H as (Hl & Hlen & Hend & Hne).
  rewrite forward_value_at in Hend by assumption.
  repeat split; auto.
  - rewrite Hl at 1. unfold values. apply list_fmap_ext.
    intros i j _. now apply forward_value_at.
  - intros j Hj. rewrite <- forward_value_at by assumption. now apply Hne.
Qed.

Lemma for_each_complete r k :
  in_range T (_start r) ->
  convert T (_start r + Z.of_nat k * _pace r) = _end r ->
  exists k0, (k0 <= k)%nat /\
    forall fuel, (k0 < fuel)%nat ->
      for_each T fuel r
      = Some ((fun j => convert T (_start r + Z.of_nat j * _pace r)) <$> seq 0 k0).
Proof.
  intros Hs Hk.
  destruct (first_turn
              (fun j => convert T (_start r + Z.of_nat j * _pace r) = _end r)
              (fun j => Z.eq_dec _ _) k Hk) as (k0 & Hle & Hk0 & Hmin).
  exists k0. split; [exact Hle|]. intros fuel Hfuel.
  unfold for_each. rewrite (drive_complete _ k0); auto.
  - f_equal. unfold values. apply list_fmap_ext.
    intros i j _. now apply forward_value_at.
  - intros j Hj. rewrite forward_value_at by assumption. now apply Hmin.
  - now rewrite forward_value_at.
Qed.

Lemma terminates_iff r :
  in_range T (_start r) ->
  terminates T r
  <-> exists k : nat, convert T (_start r + Z.of_nat k * _pace r) = _end r.
Proof.
  intros Hs. split.
  - intros (fuel & l & H). exists (length l).
    now apply for_each_Some in H as (_ & _ & ? & _).
  - intros (k & Hk). destruct (for_each_complete r k Hs Hk) as (k0 & _ & H).
    exists (S k0). rewrite H by lia. eauto.
Qed.

(** The decrement-driven loop from [rbegin] to [rend] reads the forward
    values backwards. *)
Lemma for_each_backward_rev fuel r l :
  in_range T (_start r) ->
  for_each T fuel r = Some l ->
  forall fuel', (length l < fuel')%nat ->
    for_each_backward T fuel' r = Some (rev l).
Proof.
  intros Hs H fuel' Hfuel'.
  apply for_each_Some in H as (Hl & _ & Hend & Hne); [|assumption].
  set (k := length l) in *.
  assert (Hrend : Iterator._val (rend T r) = convert T (_start r - _pace r)).
  { unfold rend. now rewrite pre_decr_val. }
  unfold for_each_backward. rewrite (drive_complete _ k); auto.
  - f_equal. rewrite Hl, rev_values_forward. unfold values.
    apply list_fmap_ext. intros i j Hj.
    apply lookup_seq in Hj as [-> Hj].
    rewrite (backward_value_at r k) by assumption. do 3 f_equal. lia.
  - intros j Hj. rewrite (backward_value_at r k), Hrend by assumption.
    intros E. apply convert_eq_iff in E as [q E]. apply (Hne j Hj).
    rewrite <- Hend. apply convert_eq_iff. exists (- q). nia.
  - rewrite (backward_value_at r k), Hrend by assumption. f_equal. ring.
Qed.
End RangeLoops.

Ltac in_range_tac := unfold in_range; vm_compute; split; discriminate.

Section RangeExact.
Variable T : IntegerType.

(** Fuel above [k] is enough when the [k]-th value is the first one equal
    to [_end]. *)
Lemma for_each_exact (r : Range.t) (k : nat) :
  in_range T (Range._start r) ->
  convert T (Range._start r + Z.of_nat k * Range._pace r) = Range._end r ->
  (forall j, (j < k)%nat ->
     convert T (Range._start r + Z.of_nat j * Range._pace r) <> Range._end r) ->
  forall fuel, (k < fuel)%nat ->
    Range.for_each T fuel r
    = Some ((fun j => convert T (Range._start r + Z.of_nat j * Range._pace r))
              <$> seq 0 k).
Proof.
  intros Hs Hk Hmin fuel Hfuel.
  unfold Range.for_each. rewrite (drive_complete _ k); auto.
  - f_equal. unfold Range.values. apply list_fmap_ext.
    intros i j _. now apply forward_value_at.
  - intros j Hj. rewrite forward_value_at by assumption. now apply Hmin.
  - now rewrite forward_value_at.
Qed.

(** With a pace of one, from [start] up to a larger [end_]. *)
Lemma for_each_unit_pace (start end_ : Z) (fuel : nat) :
  in_range T start -> in_range T end_ -> start < end_ ->
  (Z.to_nat (end_ - start) < fuel)%nat ->
  Range.for_each T fuel (range start end_ 1) = Some (seqZ start (end_ - start)).
Proof.
  intros Hs He Hlt Hfuel. unfold range.
  assert (Hv : forall j : nat, Z.of_nat j <= end_ - start ->
                 convert T (start + Z.of_nat j * 1) = start + Z.of_nat j).
  { intros j Hj. replace (start + Z.of_nat j * 1) with (start + Z.of_nat j) by lia.
    apply convert_id. unfold in_range in *. lia. }
  rewrite (for_each_exact _ (Z.to_nat (end_ - start))); cbn [Range._start Range._end Range._pace];
    auto.
  - f_equal. unfold seqZ. apply list_fmap_ext. intros i j Hj.
    apply lookup_seq in Hj as [-> Hj]. rewrite Hv by lia. lia.
  - rewrite Hv by lia. lia.
  - intros j Hj. rewrite Hv by lia. lia.
Qed.
End RangeExact.

(** ** The claims about [range.hpp] *)

(** C3 (as the code has it): iteration over [Range(start, end, pace)] ends
    exactly when the current value becomes equal to [end]: it ends if and
    only if [start + k * pace] converted to [IntegerType], that is taken
    modulo [2 ^ bits], equals [end] for some [k >= 0]; the values read
    are those of the turns before the first such [k], none of them [end];
    and when no such [k] exists no amount of fuel ends the loop. *)
Theorem range_ends_when_value_is_end (T : IntegerType) (start end_ pace : Z) :
  in_range T start ->
  (Range.terminates T (range start end_ pace)
   <-> exists k : nat, convert T (start + Z.of_nat k * pace) = end_)
  /\ (forall fuel l,
        Range.for_each T fuel (range start end_ pace) = Some l ->
        l = (fun j => convert T (start + Z.of_nat j * pace)) <$> seq 0 (length l)
        /\ convert T (start + Z.of_nat (length l) * pace) = end_
        /\ Forall (fun v => v <> end_) l)
  /\ ((forall k : nat, convert T (start + Z.of_nat k * pace) <> end_) ->
      forall fuel, Range.for_each T fuel (range start end_ pace) = None).
Proof.
  intros Hs. split; [|split].
  - apply (terminates_iff T (range start end_ pace) Hs).
  - intros fuel l H.
    apply (for_each_Some T fuel (range start end_ pace) l Hs) in H
      as (Hl & _ & Hend & Hne).
    cbn [range Range._start Range._end Range._pace] in *.
    repeat split; auto.
    rewrite Hl. apply Forall_fmap, Forall_forall. intros j Hj. cbn.
    apply Hne. apply list_elem_of_In, in_seq in Hj. lia.
  - intros Hnever fuel.
    destruct (Range.for_each T fuel (range start end_ pace)) as [l|] eqn:H; [|reflexivity].
    apply (for_each_Some T fuel (range start end_ pace) l Hs) in H
      as (_ & _ & Hend & _).
    now apply Hnever in Hend.
Qed.

Lemma range_ends_when_value_is_end_witness :
  in_range int 0
  /\ (Range.terminates int (range 0 10 2)
      <-> exists k : nat, convert int (0 + Z.of_nat k * 2) = 10).
Proof.
  split; [in_range_tac|].
  apply (range_ends_when_value_is_end int 0 10 2). in_range_tac.
Defined.

(** C3 as stated fails.  In [unsigned char], [range(0, 10, 3)]: [10 - 0]
    is no multiple of [3], and the loop ends after 174 turns, its value
    having wrapped around twice.  In [signed char], [range(5, 0, 1)]: the
    pace is positive and [end] lies below [start], and the loop ends after
    251 turns. *)
Lemma range_overshoot_wraps_around :
  (10 - 0) mod 3 = 1
  /\ Range.terminates unsigned_char (range 0 10 3)
  /\ length <$> Range.for_each unsigned_char 175 (range 0 10 3) = Some 174%nat
  /\ Z.sgn 1 = 1 /\ Z.sgn (0 - 5) = -1
  /\ Range.terminates signed_char (range 5 0 1)
  /\ length <$> Range.for_each signed_char 252 (range 5 0 1) = Some 251%nat.
Proof.
  assert (H1 : length <$> Range.for_each unsigned_char 175 (range 0 10 3) = Some 174%nat)
    by (vm_compute; reflexivity).
  assert (H2 : length <$> Range.for_each signed_char 252 (range 5 0 1) = Some 251%nat)
    by (vm_compute; reflexivity).
  assert (T1 : Range.terminates unsigned_char (range 0 10 3)).
  { pose proof H1 as E. apply fmap_Some in E as (l & E & _).
    exists 175%nat, l. exact E. }
  assert (T2 : Range.terminates signed_char (range 5 0 1)).
  { pose proof H2 as E. apply fmap_Some in E as (l & E & _).
    exists 252%nat, l. exact E. }
  split; [reflexivity|]. split; [exact T1|]. split; [exact H1|].
  split; [reflexivity|]. split; [reflexivity|]. split; [exact T2|exact H2].
Qed.

(** The default [IntegerType] wraps around as well: [range(5, 0, 1)] over
    [std::size_t] ends, after [2 ^ 64 - 5] turns. *)
Lemma range_size_t_wraps_around : Range.terminates size_t (range 5 0 1).
Proof.
  apply terminates_iff; [in_range_tac|].
  exists (Z.to_nat (2 ^ 64 - 5)). cbn [range Range._start Range._end Range._pace].
  rewrite Z2Nat.id by (apply Z.leb_le; reflexivity). reflexivity.
Qed.

(** [iter_range] over a sequence of five elements yields its indices. *)
Lemma iter_range_indices {V : Type} (a b c d e : V) (fuel : nat) :
  (5 < fuel)%nat ->
  Range.for_each size_t fuel (iter_range size_t [a; b; c; d; e]) = Some [0; 1; 2; 3; 4].
Proof.
  intros Hfuel. change (iter_range size_t [a; b; c; d; e]) with (range 0 5 1).
  rewrite for_each_unit_pace; [reflexivity|in_range_tac|in_range_tac|lia|].
  change (Z.to_nat (5 - 0)) with 5%nat. lia.
Qed.

(** C4: for [start < end], [range(start, end, 1)] yields exactly
    [end - start] values, strictly increasing, the first [start] and the
    last [end - 1]; [range(5)] yields [0, 1, 2, 3, 4] and [range(0, 10, 2)]
    yields [0, 2, 4, 6, 8]. *)
Theorem range_unit_pace_values (T : IntegerType) (start end_ : Z) :
  in_range T start -> in_range T end_ -> start < end_ ->
  (forall fuel, (Z.to_nat (end_ - start) < fuel)%nat ->
     exists l,
       Range.for_each T fuel (range start end_ 1) = Some l
       /\ l = seqZ start (end_ - start)
       /\ Z.of_nat (length l) = end_ - start
       /\ (forall i j a b, (i < j)%nat -> l !! i = Some a -> l !! j = Some b -> a < b)
       /\ head l = Some start
       /\ last l = Some (end_ - 1))
  /\ (forall fuel, (5 < fuel)%nat ->
        Range.for_each T fuel (range_to 5) = Some [0; 1; 2; 3; 4])
  /\ (forall fuel, (5 < fuel)%nat ->
        Range.for_each T fuel (range 0 10 2) = Some [0; 2; 4; 6; 8]).
Proof.
  intros Hs He Hlt. split; [|split].
  - intros fuel Hfuel. exists (seqZ start (end_ - start)).
    split; [now apply for_each_unit_pace|]. split; [reflexivity|].
    split; [rewrite length_seqZ; lia|]. split; [|split].
    + intros i j a b Hij Ha Hb.
      apply lookup_seqZ in Ha as [-> _]. apply lookup_seqZ in Hb as [-> _]. lia.
    + rewrite head_lookup. apply lookup_seqZ. lia.
    + rewrite last_lookup, length_seqZ. apply lookup_seqZ. lia.
  - intros fuel Hfuel. change (range_to 5) with (range 0 5 1).
    rewrite for_each_unit_pace; [reflexivity| | |lia|].
    + destruct T; in_range_tac.
    + destruct T; in_range_tac.
    + change (Z.to_nat (5 - 0)) with 5%nat. lia.
  - intros fuel Hfuel.
    rewrite (for_each_exact T (range 0 10 2) 5); [destruct T; reflexivity| | | |lia].
    + destruct T; in_range_tac.
    + destruct T; reflexivity.
    + intros j Hj. cbn [range Range._start Range._end Range._pace].
      do 5 (destruct j as [|j]; [destruct T; discriminate|]). lia.
Qed.

Lemma range_unit_pace_values_witness :
  in_range int 2 /\ in_range int 6 /\ 2 < 6
  /\ (forall fuel, (Z.to_nat (6 - 2) < fuel)%nat ->
        exists l,
          Range.for_each int fuel (range 2 6 1) = Some l
          /\ l = seqZ 2 (6 - 2)
          /\ Z.of_nat (length l) = 6 - 2
          /\ (forall i j a b, (i < j)%nat -> l !! i = Some a -> l !! j = Some b -> a < b)
          /\ head l = Some 2
          /\ last l = Some (6 - 1)).
Proof.
  split; [in_range_tac|]. split; [in_range_tac|]. split; [lia|].
  apply (range_unit_pace_values int 2 6); [in_range_tac|in_range_tac|lia].
Defined.

(** C5 (as the code has it): [rbegin()] is [--end()] and [rend()] is
    [--begin()]; whenever forward iteration ends, the pair, driven by the
    prefix decrement, yields exactly the reverse of the forward values. *)
Theorem rbegin_rend_driven_backward (T : IntegerType) (r : Range.t) :
  in_range T (Range._start r) ->
  Range.rbegin T r = Range.Iterator.pre_decr T (Range.end_ r)
  /\ Range.rend T r = Range.Iterator.pre_decr T (Range.begin r)
  /\ (forall fuel l,
        Range.for_each T fuel r = Some l ->
        forall fuel', (length l < fuel')%nat ->
          Range.for_each_backward T fuel' r = Some (rev l)).
Proof.
  intros Hs. split; [reflexivity|]. split; [reflexivity|].
  intros fuel l H fuel' Hfuel'. now apply (for_each_backward_rev T fuel r l).
Qed.

Lemma rbegin_rend_driven_backward_witness :
  in_range int 0
  /\ Range.rbegin int (range 0 5 1) = Range.Iterator.mk 4 1
  /\ Range.rend int (range 0 5 1) = Range.Iterator.mk (-1) 1
  /\ Range.for_each int 6 (range 0 5 1) = Some [0; 1; 2; 3; 4]
  /\ Range.for_each_backward int 6 (range 0 5 1) = Some [4; 3; 2; 1; 0].
Proof.
  split; [in_range_tac|].
  split; [reflexivity|]. split; [reflexivity|]. split; [reflexivity|].
  assert (H : in_range int (Range._start (range 0 5 1))) by in_range_tac.
  destruct (rbegin_rend_driven_backward int (range 0 5 1) H) as (_ & _ & Hrev).
  apply (Hrev 6%nat [0; 1; 2; 3; 4]); [reflexivity|cbn; lia].
Defined.

(** C5 as stated fails.  In [int], [range(0, 5, 1)] yields [0 .. 4];
    [rbegin()] is at [4] and [rend()] at [-1], and the increment moves
    [rbegin()] to [5]: whatever the fuel, the loop driven by [++] does not
    yield [4, 3, 2, 1, 0].  In [signed char] the same loop can be run to
    its end: it reads 251 values, from [4] up to [127] and from [-128] up
    to [-2]. *)
Lemma rbegin_rend_driven_forward :
  Range.for_each int 6 (range 0 5 1) = Some [0; 1; 2; 3; 4]
  /\ load Range.Iterator.deref (Range.rbegin int (range 0 5 1)) = 4
  /\ load Range.Iterator.deref
       (Range.Iterator.pre_incr int (Range.rbegin int (range 0 5 1))) = 5
  /\ (forall fuel,
        Range.for_each_reverse int fuel (range 0 5 1) = Some (rev [0; 1; 2; 3; 4])
        -> False)
  /\ Range.for_each signed_char 6 (range 0 5 1) = Some [0; 1; 2; 3; 4]
  /\ Range.for_each_reverse signed_char 252 (range 0 5 1)
     = Some (seqZ 4 124 ++ seqZ (-128) 127).
Proof.
  split; [reflexivity|]. split; [reflexivity|]. split; [reflexivity|].
  split; [|split; [reflexivity|vm_compute; reflexivity]].
  intros [|[|fuel]] H; [discriminate H|discriminate H|].
  unfold Range.for_each_reverse in H. cbn [Range.drive] in H.
  change (Range.Iterator.ne (Range.rbegin int (range 0 5 1)) (Range.rend int (range 0 5 1)))
    with true in H.
  change (Range.Iterator.ne
            (Range.Iterator.pre_incr int (Range.rbegin int (range 0 5 1)))
            (Range.rend int (range 0 5 1)))
    with true in H.
  cbv iota in H.
  change (load Range.Iterator.deref (Range.rbegin int (range 0 5 1))) with 4 in H.
  change (load Range.Iterator.deref
            (Range.Iterator.pre_incr int (Range.rbegin int (range 0 5 1))))
    with 5 in H.
  apply fmap_Some in H as (l1 & H & E1).
  apply fmap_Some in H as (l2 & _ & E2).
  subst l1. discriminate E1.
Qed.

(** C8: dereferencing an [Iterator] yields the current value, through a
    reference to it when the iterator is mutable and as a copy when it is
    const-qualified; the dereference operator of [Const_Iterator] names a
    member, [val], that the class does not have, and yields nothing. *)
Theorem const_iterator_deref_names_no_member (it : Range.Iterator.t) :
  load Range.Iterator.deref it = Range.Iterator._val it
  /\ (forall v,
        store Range.Iterator.deref it v = Range.Iterator.mk v (Range.Iterator._pace it))
  /\ Range.Iterator.deref_const it = Some (Range.Iterator._val it)
  /\ Range.Const_Iterator.deref it = None
  /\ Range.Const_Iterator.deref (Range.Iterator.mk 3 1) = None.
Proof. repeat split. Qed.

(** C9: for an iterator holding a value of its type, [+= n] followed by
    [-= n], or [-= n] followed by [+= n], restores the iterator, so the
    prefix decrement is the inverse of the prefix increment; no increment
    or decrement changes the pace. *)
Theorem iterator_step_inverse (T : IntegerType) (it : Range.Iterator.t) (n : N) :
  in_range T (Range.Iterator._val it) ->
  Range.Iterator.minus_eq T (Range.Iterator.plus_eq T it n) n = it
  /\ Range.Iterator.plus_eq T (Range.Iterator.minus_eq T it n) n = it
  /\ Range.Iterator.pre_decr T (Range.Iterator.pre_incr T it) = it
  /\ Range.Iterator.pre_incr T (Range.Iterator.pre_decr T it) = it
  /\ Range.Iterator._pace (Range.Iterator.plus_eq T it n) = Range.Iterator._pace it
  /\ Range.Iterator._pace (Range.Iterator.minus_eq T it n) = Range.Iterator._pace it
  /\ Range.Iterator._pace (Range.Iterator.pre_incr T it) = Range.Iterator._pace it
  /\ Range.Iterator._pace (Range.Iterator.pre_decr T it) = Range.Iterator._pace it
  /\ Range.Iterator._pace (snd (Range.Iterator.post_incr T it)) = Range.Iterator._pace it
  /\ Range.Iterator._pace (snd (Range.Iterator.post_decr T it)) = Range.Iterator._pace it.
Proof.
  intros Hit.
  assert (Hpm : forall m, Range.Iterator.minus_eq T (Range.Iterator.plus_eq T it m) m = it).
  { intros m. apply iterator_eq; [|reflexivity].
    rewrite minus_eq_val, plus_eq_val.
    change (Range.Iterator._pace (Range.Iterator.plus_eq T it m))
      with (Range.Iterator._pace it).
    destruct (convert_diff T
                (Range.Iterator._val it + Z.of_N m * Range.Iterator._pace it)) as [q Hq].
    apply (convert_unique T _ _ q Hit). rewrite Hq. ring. }
  assert (Hmp : forall m, Range.Iterator.plus_eq T (Range.Iterator.minus_eq T it m) m = it).
  { intros m. apply iterator_eq; [|reflexivity].
    rewrite plus_eq_val, minus_eq_val.
    change (Range.Iterator._pace (Range.Iterator.minus_eq T it m))
      with (Range.Iterator._pace it).
    destruct (convert_diff T
                (Range.Iterator._val it - Z.of_N m * Range.Iterator._pace it)) as [q Hq].
    apply (convert_unique T _ _ q Hit). rewrite Hq. ring. }
  split; [apply Hpm|]. split; [apply Hmp|].
  split; [apply (Hpm 1%N)|]. split; [apply (Hmp 1%N)|].
  repeat split.
Qed.

Lemma iterator_step_inverse_witness :
  in_range unsigned_char 250
  /\ Range.Iterator.minus_eq unsigned_char
       (Range.Iterator.plus_eq unsigned_char (Range.Iterator.mk 250 3) 4) 4
     = Range.Iterator.mk 250 3.
Proof.
  split; [in_range_tac|].
  apply (iterator_step_inverse unsigned_char (Range.Iterator.mk 250 3) 4). in_range_tac.
Defined.

(** C10: [it++] returns an iterator holding the value from before the
    increment and leaves [it] advanced by its pace; [it--] returns an
    iterator holding the value from before the decrement and leaves [it]
    decreased by its pace. *)
Theorem iterator_postfix (T : IntegerType) (it : Range.Iterator.t) :
  fst (Range.Iterator.post_incr T it) = it
  /\ Range.Iterator._val (snd (Range.Iterator.post_incr T it))
     = convert T (Range.Iterator._val it + Range.Iterator._pace it)
  /\ snd (Range.Iterator.post_incr T it) = Range.Iterator.pre_incr T it
  /\ fst (Range.Iterator.post_decr T it) = it
  /\ Range.Iterator._val (snd (Range.Iterator.post_decr T it))
     = convert T (Range.Iterator._val it - Range.Iterator._pace it)
  /\ snd (Range.Iterator.post_decr T it) = Range.Iterator.pre_decr T it.
Proof.
  split; [reflexivity|]. split; [apply pre_incr_val|]. split; [reflexivity|].
  split; [reflexivity|]. split; [apply pre_decr_val|reflexivity].
Qed.

(** ** [zip_iterator]: the components one by one *)

Section ZipComponents.
Import Zip.

Lemma Idx_components {F : Iterable -> Type} {A Args} (i : index A Args)
    (t : type_extractor_tuple F Args) :
  components t !! Idx i = Some (existT A (get i t)).
Proof. induction i as [B|A' B i IH]; cbn; [reflexivity|apply IH]. Qed.

Lemma length_components {F : Iterable -> Type} {Args}
    (t : type_extractor_tuple F Args) :
  length (components t) = length Args.
Proof. induction Args as [|A B IH]; cbn; [reflexivity|now rewrite IH]. Qed.

Lemma Idx_lt {A Args} (i : index A Args) : (Idx i < length Args)%nat.
Proof. induction i; cbn; lia. Qed.

Lemma get_set {F : Iterable -> Type} {A Args} (i : index A Args) (x : F A)
    (t : type_extractor_tuple F Args) :
  get i (set i x t) = x.
Proof. induction i as [B|A' B i IH]; cbn; [reflexivity|apply IH]. Qed.

Lemma components_set {F : Iterable -> Type} {A Args} (i : index A Args) (x : F A)
    (t : type_extractor_tuple F Args) :
  components (set i x t) = <[Idx i := existT A x]> (components t).
Proof. induction i as [B|A' B i IH]; cbn; [reflexivity|now rewrite IH]. Qed.

(** The head of the pack [A, B...] sits at index [len - sizeof...(B) - 1]
    of the whole tuple. *)
Lemma head_index_of_pack (before : list Iterable) (A : Iterable) (B : list Iterable) :
  head_index (length (before ++ A :: B)) B = length before.
Proof. unfold head_index. rewrite length_app. cbn. lia. Qed.

Lemma get_plus_eq {A Args} (i : index A Args) (it : zip_iterator Args) (n : N) :
  get i (plus_eq it n) = it_plus A (get i it) n.
Proof.
  unfold plus_eq. induction i as [B|A' B i IH]; cbn; [reflexivity|apply IH].
Qed.

Lemma get_pre_decr {A Args} (i : index A Args) (it : zip_iterator Args) :
  get i (pre_decr it) = it_pre_decr A (get i it).
Proof.
  unfold pre_decr. induction i as [B|A' B i IH]; cbn; [reflexivity|apply IH].
Qed.

Lemma get_deref {A Args} (i : index A Args) (it : zip_iterator Args) :
  get i (deref it) = it_deref A (get i it).
Proof.
  unfold deref. induction i as [B|A' B i IH]; cbn; [reflexivity|apply IH].
Qed.

Lemma get_iter_pre_decr {A Args} (i : index A Args) (it : zip_iterator Args) (k : nat) :
  get i (Nat.iter k pre_decr it) = Nat.iter k (it_pre_decr A) (get i it).
Proof.
  induction k as [|k IH]; [reflexivity|].
  now rewrite !Nat.iter_succ, get_pre_decr, IH.
Qed.

(** The loop of [-=] decrements once per value of [i] below [n]. *)
Lemma minus_eq_loop_iter {Args} (fuel : nat) : forall (i n : N) (it : zip_iterator Args),
  (i <= n)%N -> (N.to_nat n - N.to_nat i < fuel)%nat ->
  minus_eq_loop fuel i n it = Nat.iter (N.to_nat n - N.to_nat i) pre_decr it.
Proof.
  induction fuel as [|fuel IH]; intros i n it Hin Hfuel; [lia|].
  cbn [minus_eq_loop]. destruct (N.ltb_spec i n) as [Hlt|Hge].
  - rewrite IH by lia.
    replace (N.to_nat n - N.to_nat i)%nat with (S (N.to_nat n - N.to_nat (i + 1)))
      by lia.
    now rewrite Nat.iter_succ_r.
  - now replace (N.to_nat n - N.to_nat i)%nat with 0%nat by lia.
Qed.

Lemma minus_eq_iter {Args} (it : zip_iterator Args) (n : N) :
  minus_eq it n = Nat.iter (N.to_nat n) pre_decr it.
Proof.
  unfold minus_eq. rewrite minus_eq_loop_iter by lia.
  f_equal. lia.
Qed.

Lemma get_eq_true {A Args} (i : index A Args) (a b : zip_iterator Args) :
  it_eq A (get i a) (get i b) = true -> eq a b = true.
Proof.
  unfold eq. induction i as [B|A' B i IH]; cbn; intros H.
  - now rewrite H.
  - rewrite (IH _ _ H). apply orb_true_r.
Qed.

Lemma eq_true_get {Args} (a b : zip_iterator Args) :
  eq a b = true ->
  exists A (i : index A Args), it_eq A (get i a) (get i b) = true.
Proof.
  unfold eq. induction Args as [|A B IH]; cbn; intros H; [discriminate|].
  apply orb_true_iff in H as [H|H].
  - exists A, (index_here B). exact H.
  - destruct (IH _ _ H) as (A' & i & Hi). exists A', (index_next A i). exact Hi.
Qed.

Lemma eq_false_get {Args} (a b : zip_iterator Args) :
  eq a b = false <->
  forall A (i : index A Args), it_eq A (get i a) (get i b) = false.
Proof.
  split.
  - intros H A i. destruct (it_eq A (get i a) (get i b)) eqn:E; [|reflexivity].
    apply get_eq_true in E. congruence.
  - intros H. destruct (eq a b) eqn:E; [|reflexivity].
    apply eq_true_get in E as (A & i & E). now rewrite H in E.
Qed.

(** The private [!=] template, which no member calls, agrees with the
    public [!=] on iterators whose own [!=] negates their [==]. *)
Lemma ne_pack_ne {Args} (a b : zip_iterator Args) :
  (forall A (i : index A Args) x y, it_ne A x y = negb (it_eq A x y)) ->
  ne_pack Args a b = ne a b.
Proof.
  unfold ne. induction Args as [|A B IH]; cbn; intros H; [reflexivity|].
  rewrite (H A (index_here B)), negb_orb. f_equal.
  apply IH. intros A' i. apply (H A' (index_next A i)).
Qed.
End ZipComponents.

(** ** [zip] over vectors *)

Section ZipVectors.
Import Zip.

Lemma positions_begin_pack (Vs : list Type) :
  forall (cs : type_extractor_tuple container (vectors Vs))
         (begin_it : zip_iterator (vectors Vs)),
    positions Vs (begin_pack (vectors Vs) cs begin_it) = replicate (length Vs) 0.
Proof.
  induction Vs as [|V Vs IH]; intros cs begin_it; cbn; [reflexivity|].
  now rewrite IH.
Qed.

Lemma positions_end_pack (Vs : list Type) :
  forall (cs : type_extractor_tuple container (vectors Vs))
         (end_it : zip_iterator (vectors Vs)),
    positions Vs (end_pack (vectors Vs) cs end_it) = Z.of_nat <$> sizes Vs cs.
Proof.
  induction Vs as [|V Vs IH]; intros cs end_it; cbn; [reflexivity|].
  now rewrite IH.
Qed.

Lemma positions_plus_eq (Vs : list Type) (n : N) :
  forall it : zip_iterator (vectors Vs),
    positions Vs (plus_eq it n)
    = (fun p => p + convert ptrdiff_t (Z.of_N n)) <$> positions Vs it.
Proof.
  unfold plus_eq. induction Vs as [|V Vs IH]; intros it; cbn; [reflexivity|].
  now rewrite IH.
Qed.

Lemma designated_deref (Vs : list Type) :
  forall it : zip_iterator (vectors Vs),
    designated Vs (deref it) = positions Vs it.
Proof.
  unfold deref. induction Vs as [|V Vs IH]; intros it; cbn; [reflexivity|].
  now rewrite IH.
Qed.

Lemma length_sizes (Vs : list Type) :
  forall cs : type_extractor_tuple container (vectors Vs),
    length (sizes Vs cs) = length Vs.
Proof.
  induction Vs as [|V Vs IH]; intros cs; cbn; [reflexivity|]. now rewrite IH.
Qed.

(** An iterator whose components all stand at [p] equals [other] as soon
    as one component of [other] stands at [p]. *)
Lemma eq_all_at (Vs : list Type) (p : Z) :
  forall this other : zip_iterator (vectors Vs),
    positions Vs this = replicate (length Vs) p ->
    (eq this other = true <-> p ∈ positions Vs other).
Proof.
  unfold eq. induction Vs as [|V Vs IH]; intros this other Hp.
  - cbn. split; [discriminate|]. intros H. inversion H.
  - destruct this as [p0 this], other as [q other]. cbn in *.
    injection Hp as -> Hp.
    rewrite orb_true_iff, (IH _ _ Hp), elem_of_cons. now rewrite Z.eqb_eq.
Qed.

(** Every position below all the sizes designates an element. *)
Lemma load_pack_all_at (Vs : list Type) (k : nat) :
  forall (cs : type_extractor_tuple container (vectors Vs))
         (refs : reference_tuple (vectors Vs)),
    designated Vs refs = replicate (length Vs) (Z.of_nat k) ->
    Forall (fun s => k < s)%nat (sizes Vs cs) ->
    is_Some (load_pack (vectors Vs) cs refs).
Proof.
  induction Vs as [|V Vs IH]; intros cs refs Hd Hs; [cbn; eauto|].
  destruct cs as [c cs], refs as [r refs]. cbn in *.
  injection Hd as -> Hd. apply Forall_cons in Hs as [Hk Hs].
  destruct (IH _ _ Hd Hs) as [vs Hvs]. unfold vectors in Hvs. rewrite Hvs.
  destruct (Z.leb_spec 0 (Z.of_nat k)); [|lia]. rewrite Nat2Z.id.
  destruct (lookup_lt_is_Some_2 c k Hk) as [v ->]. eauto.
Qed.
End ZipVectors.

Lemma min_list_elem_of (ns : list nat) : ns <> [] -> min_list ns ∈ ns.
Proof.
  destruct ns as [|n ns]; [congruence|]. intros _. cbn.
  induction ns as [|n' ns IH]; cbn; [apply list_elem_of_here|].
  destruct (Nat.min_spec n' (foldr Nat.min n ns)) as [[_ ->]|[_ ->]].
  - apply list_elem_of_further, list_elem_of_here.
  - apply elem_of_cons in IH as [->|IH].
    + apply list_elem_of_here.
    + now do 2 apply list_elem_of_further.
Qed.

Lemma min_list_le (ns : list nat) (n : nat) : n ∈ ns -> (min_list ns <= n)%nat.
Proof.
  destruct ns as [|n0 ns]; [intros H; inversion H|]. cbn.
  revert n. induction ns as [|n' ns IH]; cbn; intros n H.
  - apply list_elem_of_singleton in H. lia.
  - rewrite !elem_of_cons in H.
    pose proof (IH n0 (list_elem_of_here _ _)).
    destruct H as [H|[H|H]]; [lia|lia|].
    pose proof (IH n (list_elem_of_further _ _ _ H)). lia.
Qed.

Section ZipLoop.
Import Zip.
Variable Vs : list Type.
Variable cs : type_extractor_tuple container (vectors Vs).
Hypothesis some_container : Vs <> [].

Lemma sizes_not_nil : sizes Vs cs <> [].
Proof.
  intros E. apply some_container, length_zero_iff_nil.
  now rewrite <- (length_sizes Vs cs), E.
Qed.

Lemma positions_end : positions Vs (end_ (zip cs)) = Z.of_nat <$> sizes Vs cs.
Proof. apply positions_end_pack. Qed.

Lemma positions_begin : positions Vs (begin (zip cs)) = replicate (length Vs) 0.
Proof. apply positions_begin_pack. Qed.

(** With every component at [j], the test against [end()] is decided by
    whether some container has exactly [j] elements. *)
Lemma ne_end_all_at (j : nat) (it : zip_iterator (vectors Vs)) :
  positions Vs it = replicate (length Vs) (Z.of_nat j) ->
  ne it (end_ (zip cs)) = negb (bool_decide (j ∈ sizes Vs cs)).
Proof.
  intros Hp. unfold ne. fold (eq it (end_ (zip cs))). f_equal.
  apply eq_true_iff_eq. rewrite (eq_all_at Vs _ _ _ Hp), positions_end.
  rewrite bool_decide_eq_true, list_elem_of_fmap. split.
  - intros (s & E & Hs). now apply Nat2Z.inj in E as ->.
  - intros Hj. eauto.
Qed.

(** From position [j], the loop makes the [d] turns that are left up to
    the least size. *)
Lemma drive_to_shortest (d : nat) : forall (j fuel : nat) (it : zip_iterator (vectors Vs)),
  (j + d = min_list (sizes Vs cs))%nat ->
  positions Vs it = replicate (length Vs) (Z.of_nat j) ->
  (d < fuel)%nat ->
  exists refs,
    drive fuel it (end_ (zip cs)) = Some refs
    /\ designated Vs <$> refs
       = (fun k => replicate (length Vs) (Z.of_nat k)) <$> seq j d.
Proof.
  induction d as [|d IH]; intros j fuel it Hj Hp Hfuel;
    (destruct fuel as [|fuel]; [lia|]); cbn [drive]; rewrite (ne_end_all_at j it Hp).
  - rewrite bool_decide_eq_true_2.
    + exists []. split; reflexivity.
    + replace j with (min_list (sizes Vs cs)) by lia.
      apply min_list_elem_of, sizes_not_nil.
  - rewrite bool_decide_eq_false_2.
    + destruct (IH (S j) fuel (pre_incr it)) as (refs & Hd & Hr); [lia| |lia|].
      * unfold pre_incr. rewrite positions_plus_eq, Hp, fmap_replicate.
        change (convert ptrdiff_t (Z.of_N 1)) with 1. f_equal. lia.
      * exists (deref it :: refs). cbn [negb]. rewrite Hd. split; [reflexivity|].
        cbn [fmap list_fmap seq]. fold (@fmap list _ _ _ (designated Vs) refs).
        rewrite Hr, designated_deref, Hp. reflexivity.
    + intros Hin. apply min_list_le in Hin. lia.
Qed.
End ZipLoop.

(** ** The claims about [zip.hpp] *)

(** C1: iterating [zip(seq_1, ..., seq_N)] from [begin()] to [end()]
    makes exactly [min(length(seq_1), ..., length(seq_N))] turns; turn [k]
    dereferences position [k] of every sequence, which lies below the size
    of each, so every reference read designates an element; over a
    3-element and a 5-element sequence the loop yields the 3 tuples
    [(seqA[i], seqB[i])] and reads positions 0, 1 and 2 only. *)
Theorem zip_truncates_to_shortest (Vs : list Type)
    (cs : Zip.type_extractor_tuple Zip.container (Zip.vectors Vs)) :
  Vs <> [] ->
  (forall fuel, (min_list (Zip.sizes Vs cs) < fuel)%nat ->
     exists refs,
       Zip.for_each fuel (Zip.zip cs) = Some refs
       /\ length refs = min_list (Zip.sizes Vs cs)
       /\ (forall k r, refs !! k = Some r ->
             Zip.designated Vs r = replicate (length Vs) (Z.of_nat k)
             /\ Forall (fun s => k < s)%nat (Zip.sizes Vs cs)
             /\ is_Some (Zip.load_pack (Zip.vectors Vs) cs r)))
  /\ (forall (A B : Type) (a0 a1 a2 : A) (b0 b1 b2 b3 b4 : B),
        @Zip.for_each (Zip.vectors [A; B]) 4
          (@Zip.zip (Zip.vectors [A; B]) ([a0; a1; a2], ([b0; b1; b2; b3; b4], tt)))
        = Some [(0, (0, tt)); (1, (1, tt)); (2, (2, tt))]
        /\ @Zip.for_each_values (Zip.vectors [A; B]) 4
             (@Zip.zip (Zip.vectors [A; B]) ([a0; a1; a2], ([b0; b1; b2; b3; b4], tt)))
           = Some [(a0, (b0, tt)); (a1, (b1, tt)); (a2, (b2, tt))]).
Proof.
  intros HVs. split; [|intros; split; reflexivity].
  intros fuel Hfuel.
  destruct (drive_to_shortest Vs cs HVs (min_list (Zip.sizes Vs cs)) 0 fuel
              (Zip.begin (Zip.zip cs)))
    as (refs & Hd & Hr); [lia|apply positions_begin|lia|].
  exists refs. split; [exact Hd|].
  assert (Hlen : length refs = min_list (Zip.sizes Vs cs)).
  { rewrite <- (length_fmap (Zip.designated Vs)), Hr, length_fmap. apply length_seq. }
  split; [exact Hlen|]. intros k r Hk.
  assert (Hlt : (k < min_list (Zip.sizes Vs cs))%nat).
  { rewrite <- Hlen. eapply lookup_lt_Some, Hk. }
  assert (Hdes : Zip.designated Vs r = replicate (length Vs) (Z.of_nat k)).
  { assert (E : (Zip.designated Vs <$> refs) !! k = Some (Zip.designated Vs r))
      by now rewrite list_lookup_fmap, Hk.
    rewrite Hr, list_lookup_fmap, lookup_seq_lt in E by lia.
    cbn in E. now injection E as <-. }
  assert (Hsz : Forall (fun s => k < s)%nat (Zip.sizes Vs cs)).
  { apply Forall_forall. intros s Hs. apply min_list_le in Hs. lia. }
  split; [exact Hdes|]. split; [exact Hsz|].
  now apply (load_pack_all_at Vs k).
Qed.

Lemma zip_truncates_to_shortest_witness :
  [nat : Type; bool : Type] <> []
  /\ exists refs,
       @Zip.for_each (Zip.vectors [nat : Type; bool : Type]) 3
         (@Zip.zip (Zip.vectors [nat : Type; bool : Type])
            ([7; 8]%nat, ([true; false; true], tt)))
       = Some refs
       /\ length refs = 2%nat.
Proof.
  split; [discriminate|].
  destruct (zip_truncates_to_shortest [nat : Type; bool : Type]
              ([7; 8]%nat, ([true; false; true], tt)) ltac:(discriminate))
    as [H _].
  destruct (H 3%nat ltac:(cbn; lia)) as (refs & Hrefs & Hlen & _).
  exists refs. split; [exact Hrefs|exact Hlen].
Defined.

(** C2: two [zip_iterator]s of the same arity compare equal if and only
    if the sub-iterators at one index at least compare equal, and [!=] is
    the negation of [==]: it holds if and only if the sub-iterators differ
    at every index. *)
Theorem zip_iterator_eq_any_pair (Args : list Zip.Iterable) (a b : Zip.zip_iterator Args) :
  (Zip.eq a b = true
   <-> exists A (i : Zip.index A Args), Zip.it_eq A (Zip.get i a) (Zip.get i b) = true)
  /\ Zip.ne a b = negb (Zip.eq a b)
  /\ (Zip.ne a b = true
      <-> forall A (i : Zip.index A Args), Zip.it_eq A (Zip.get i a) (Zip.get i b) = false).
Proof.
  split; [|split].
  - split; [apply eq_true_get|].
    intros (A & i & H). now apply (get_eq_true i).
  - reflexivity.
  - unfold Zip.ne. fold (Zip.eq a b). rewrite negb_true_iff. apply eq_false_get.
Qed.

(** C6: the prefix increment advances every sub-iterator by one, whatever
    its position, an end position included; [+= n] advances every
    sub-iterator by [n]; [-= n] is [n] decrements of the whole iterator,
    each of which decrements every sub-iterator. *)
Theorem zip_iterator_steps (Args : list Zip.Iterable) (it : Zip.zip_iterator Args) (n : N) :
  (forall A (i : Zip.index A Args),
     Zip.get i (Zip.pre_incr it) = Zip.it_plus A (Zip.get i it) 1)
  /\ (forall A (i : Zip.index A Args),
        Zip.get i (Zip.plus_eq it n) = Zip.it_plus A (Zip.get i it) n)
  /\ Zip.minus_eq it n = Nat.iter (N.to_nat n) Zip.pre_decr it
  /\ (forall A (i : Zip.index A Args),
        Zip.get i (Zip.pre_decr it) = Zip.it_pre_decr A (Zip.get i it))
  /\ (forall A (i : Zip.index A Args),
        Zip.get i (Zip.minus_eq it n)
        = Nat.iter (N.to_nat n) (Zip.it_pre_decr A) (Zip.get i it))
  /\ (forall (Vs : list Type)
             (cs : Zip.type_extractor_tuple Zip.container (Zip.vectors Vs)),
        Zip.positions Vs (Zip.pre_incr (Zip.end_ (Zip.zip cs)))
        = (fun s => Z.of_nat s + 1) <$> Zip.sizes Vs cs).
Proof.
  split; [intros A i; apply get_plus_eq|].
  split; [intros A i; apply get_plus_eq|].
  split; [apply minus_eq_iter|].
  split; [intros A i; apply get_pre_decr|].
  split; [intros A i; rewrite minus_eq_iter; apply get_iter_pre_decr|].
  intros Vs cs. unfold Zip.pre_incr.
  rewrite positions_plus_eq, (positions_end Vs cs), <- list_fmap_compose.
  reflexivity.
Qed.

Lemma assign_vector {Args : list Zip.Iterable} {V : Type}
    (i : Zip.index (Zip.std_vector V) Args) (it : Zip.zip_iterator Args)
    (cs : Zip.type_extractor_tuple Zip.container Args) (v : V) :
  0 <= Zip.get i it < Z.of_nat (length (Zip.get i cs)) ->
  Zip.assign i (Zip.deref it) v cs
  = Some (Zip.set i (<[Z.to_nat (Zip.get i it) := v]> (Zip.get i cs)) cs).
Proof.
  intros [H0 H1]. unfold Zip.assign. rewrite get_deref.
  cbn [Zip.ref_store Zip.std_vector Zip.it_deref].
  destruct (Z.leb_spec 0 (Zip.get i it)); [|lia].
  destruct (Z.ltb_spec (Zip.get i it) (Z.of_nat (length (Zip.get i cs)))); [|lia].
  reflexivity.
Qed.

(** C7: dereferencing a [zip_iterator] gives a tuple of as many
    references as there are sequences, in their order, the one at index
    [i] being the dereference of sub-iterator [i]; assigning through the
    element of a vector's valid position changes that element of the
    wrapped vector itself, and nothing else. *)
Theorem zip_iterator_deref_references (Args : list Zip.Iterable)
    (it : Zip.zip_iterator Args) :
  (forall A (i : Zip.index A Args),
     Zip.get i (Zip.deref it) = Zip.it_deref A (Zip.get i it))
  /\ length (Zip.components (Zip.deref it)) = length Args
  /\ (forall A (i : Zip.index A Args),
        Zip.components (Zip.deref it) !! Zip.Idx i
        = Some (existT A (Zip.it_deref A (Zip.get i it))))
  /\ (forall (V : Type) (i : Zip.index (Zip.std_vector V) Args)
             (cs : Zip.type_extractor_tuple Zip.container Args) (v : V),
        0 <= Zip.get i it < Z.of_nat (length (Zip.get i cs)) ->
        exists cs',
          Zip.assign i (Zip.deref it) v cs = Some cs'
          /\ Zip.get i cs' = <[Z.to_nat (Zip.get i it) := v]> (Zip.get i cs)
          /\ Zip.components cs'
             = <[Zip.Idx i := existT (Zip.std_vector V) (Zip.get i cs')]>
                 (Zip.components cs)
          /\ Zip.ref_load (Zip.std_vector V) (Zip.get i cs') (Zip.get i (Zip.deref it))
             = Some v).
Proof.
  split; [intros A i; apply get_deref|].
  split; [apply length_components|].
  split; [intros A i; rewrite Idx_components; now rewrite get_deref|].
  intros V i cs v Hpos.
  exists (Zip.set i (<[Z.to_nat (Zip.get i it) := v]> (Zip.get i cs)) cs).
  split; [now apply assign_vector|].
  rewrite get_set. split; [reflexivity|]. split; [apply components_set|].
  rewrite get_deref. cbn [Zip.ref_load Zip.std_vector Zip.it_deref].
  destruct (Z.leb_spec 0 (Zip.get i it)); [|lia].
  apply list_lookup_insert_eq. apply Nat2Z.inj_lt.
  rewrite Z2Nat.id by apply Hpos. apply Hpos.
Qed.

Lemma zip_iterator_deref_references_witness :
  0 <= 1 < Z.of_nat (length [10; 20; 30]%nat)
  /\ exists cs',
       @Zip.assign (Zip.std_vector nat) (Zip.vectors [nat : Type; bool : Type])
         (Zip.index_here _)
         (@Zip.deref (Zip.vectors [nat : Type; bool : Type]) (1, (1, tt))) 99%nat
         ([10; 20; 30]%nat, ([true; false], tt))
       = Some cs'
       /\ fst cs' = [10; 99; 30]%nat.
Proof.
  split; [cbn; lia|].
  destruct (zip_iterator_deref_references (Zip.vectors [nat : Type; bool : Type])
              (1, (1, tt))) as (_ & _ & _ & H).
  destruct (H nat (Zip.index_here _) ([10; 20; 30]%nat, ([true; false], tt)) 99%nat
              ltac:(cbn; lia))
    as (cs' & Hassign & Hget & _).
  exists cs'. split; [exact Hassign|exact Hget].
Defined.

(** * Further properties of [range.hpp] *)

(** X1: on an iterator holding a value of its type, [+= n] is [n] prefix
    increments and [-= n] is [n] prefix decrements; two offset steps add
    up, also when the sum of the offsets is taken in [std::size_t], and
    offset steps in opposite directions commute. *)
Theorem iterator_offsets_compose (T : IntegerType) (it : Range.Iterator.t) (a b : N) :
  in_range T (Range.Iterator._val it) ->
  Range.Iterator.plus_eq T it a = Nat.iter (N.to_nat a) (Range.Iterator.pre_incr T) it
  /\ Range.Iterator.minus_eq T it a = Nat.iter (N.to_nat a) (Range.Iterator.pre_decr T) it
  /\ Range.Iterator.plus_eq T (Range.Iterator.plus_eq T it a) b
     = Range.Iterator.plus_eq T it (a + b)
  /\ Range.Iterator.plus_eq T (Range.Iterator.plus_eq T it a) b
     = Range.Iterator.plus_eq T it ((a + b) mod 2 ^ 64)
  /\ Range.Iterator.minus_eq T (Range.Iterator.minus_eq T it a) b
     = Range.Iterator.minus_eq T it (a + b)
  /\ Range.Iterator.minus_eq T (Range.Iterator.plus_eq T it a) b
     = Range.Iterator.plus_eq T (Range.Iterator.minus_eq T it b) a.
Proof.
  intros Hit.
  destruct (modulus_size_t T) as [c Hc].
  assert (H64 : modulus size_t = 2 ^ 64) by reflexivity.
  split; [|split; [|split; [|split; [|split]]]].
  - rewrite iter_pre_incr by assumption. apply iterator_eq; [|reflexivity].
    rewrite plus_eq_val. cbn [Range.Iterator._val]. now rewrite N_nat_Z.
  - rewrite iter_pre_decr by assumption. apply iterator_eq; [|reflexivity].
    rewrite minus_eq_val. cbn [Range.Iterator._val]. now rewrite N_nat_Z.
  - apply iterator_eq; [|reflexivity]. rewrite !plus_eq_val.
    change (Range.Iterator._pace (Range.Iterator.plus_eq T it a))
      with (Range.Iterator._pace it).
    apply convert_eq_iff.
    destruct (convert_diff T
                (Range.Iterator._val it + Z.of_N a * Range.Iterator._pace it)) as [q Hq].
    exists q. rewrite Hq, N2Z.inj_add. ring.
  - apply iterator_eq; [|reflexivity]. rewrite !plus_eq_val.
    change (Range.Iterator._pace (Range.Iterator.plus_eq T it a))
      with (Range.Iterator._pace it).
    apply convert_eq_iff.
    destruct (convert_diff T
                (Range.Iterator._val it + Z.of_N a * Range.Iterator._pace it)) as [q Hq].
    rewrite N2Z.inj_mod, N2Z.inj_add, N2Z.inj_pow.
    change (Z.of_N 2 ^ Z.of_N 64) with (modulus size_t).
    pose proof (Z.div_mod (Z.of_N a + Z.of_N b) (modulus size_t) ltac:(rewrite H64; lia))
      as Hdm.
    set (d := (Z.of_N a + Z.of_N b) / modulus size_t) in *.
    set (m := (Z.of_N a + Z.of_N b) mod modulus size_t) in *.
    exists (q + c * d * Range.Iterator._pace it). rewrite Hq.
    replace (Z.of_N b) with (modulus size_t * d + m - Z.of_N a) by lia.
    rewrite Hc. ring.
  - apply iterator_eq; [|reflexivity]. rewrite !minus_eq_val.
    change (Range.Iterator._pace (Range.Iterator.minus_eq T it a))
      with (Range.Iterator._pace it).
    apply convert_eq_iff.
    destruct (convert_diff T
                (Range.Iterator._val it - Z.of_N a * Range.Iterator._pace it)) as [q Hq].
    exists q. rewrite Hq, N2Z.inj_add. ring.
  - apply iterator_eq; [|reflexivity]. rewrite minus_eq_val, !plus_eq_val, minus_eq_val.
    change (Range.Iterator._pace (Range.Iterator.plus_eq T it a))
      with (Range.Iterator._pace it).
    change (Range.Iterator._pace (Range.Iterator.minus_eq T it b))
      with (Range.Iterator._pace it).
    apply convert_eq_iff.
    destruct (convert_diff T
                (Range.Iterator._val it + Z.of_N a * Range.Iterator._pace it)) as [q1 H1].
    destruct (convert_diff T
                (Range.Iterator._val it - Z.of_N b * Range.Iterator._pace it)) as [q2 H2].
    exists (q1 - q2). rewrite H1, H2. ring.
Qed.

Lemma iterator_offsets_compose_witness :
  in_range signed_char 100
  /\ Range.Iterator.plus_eq signed_char (Range.Iterator.mk 100 7) 5
     = Nat.iter 5 (Range.Iterator.pre_incr signed_char) (Range.Iterator.mk 100 7).
Proof.
  split; [in_range_tac|].
  apply (iterator_offsets_compose signed_char (Range.Iterator.mk 100 7) 5 0).
  in_range_tac.
Defined.

(** X2: the six comparison operators order iterators by their value
    alone, whatever their paces, and agree with one another: [<=] is [<]
    or [==], [>=] is [>] or [==], [!=] is [<] or [>], and exactly one of
    [<], [==], [>] holds. *)
Theorem iterator_comparisons_agree (a b : Range.Iterator.t) :
  (Range.Iterator.eq a b = true <-> Range.Iterator._val a = Range.Iterator._val b)
  /\ (Range.Iterator.lt a b = true <-> Range.Iterator._val a < Range.Iterator._val b)
  /\ (Range.Iterator.gt a b = true <-> Range.Iterator._val b < Range.Iterator._val a)
  /\ Range.Iterator.le a b = Range.Iterator.lt a b || Range.Iterator.eq a b
  /\ Range.Iterator.ge a b = Range.Iterator.gt a b || Range.Iterator.eq a b
  /\ Range.Iterator.ne a b = Range.Iterator.lt a b || Range.Iterator.gt a b
  /\ (Range.Iterator.lt a b, Range.Iterator.eq a b, Range.Iterator.gt a b)
     ∈ [(true, false, false); (false, true, false); (false, false, true)].
Proof.
  unfold Range.Iterator.le, Range.Iterator.ge, Range.Iterator.ne, Range.Iterator.gt,
    Range.Iterator.lt, Range.Iterator.eq.
  rewrite Z.eqb_eq, !Z.ltb_lt.
  destruct (Z.ltb_spec (Range.Iterator._val a) (Range.Iterator._val b)),
           (Z.ltb_spec (Range.Iterator._val b) (Range.Iterator._val a)),
           (Z.eqb_spec (Range.Iterator._val a) (Range.Iterator._val b));
    try lia; cbn; repeat split; try tauto; try lia;
    repeat (first [apply list_elem_of_here | apply list_elem_of_further]).
Qed.

(** X3: with a pace between [0] and the modulus of the type, the prefix
    increment moves an iterator above itself exactly when [_val + _pace]
    is still a value of the type; otherwise the value wraps around and the
    incremented iterator compares below the original. *)
Theorem incr_order_wraps (T : IntegerType) (it : Range.Iterator.t) :
  in_range T (Range.Iterator._val it) ->
  0 < Range.Iterator._pace it < modulus T ->
  (Range.Iterator.lt it (Range.Iterator.pre_incr T it) = true
   <-> Range.Iterator._val it + Range.Iterator._pace it <= max_value T)
  /\ (max_value T < Range.Iterator._val it + Range.Iterator._pace it ->
      Range.Iterator._val (Range.Iterator.pre_incr T it)
      = Range.Iterator._val it + Range.Iterator._pace it - modulus T
      /\ Range.Iterator.lt (Range.Iterator.pre_incr T it) it = true).
Proof.
  intros Hv Hp. unfold Range.Iterator.lt. rewrite !Z.ltb_lt, pre_incr_val.
  assert (Hwidth : max_value T = min_value T + modulus T - 1).
  { destruct T; reflexivity. }
  destruct (Z_le_gt_dec (Range.Iterator._val it + Range.Iterator._pace it) (max_value T))
    as [Hfit|Hover].
  - rewrite convert_id by (unfold in_range in *; lia).
    split; [split; lia|]. intros. lia.
  - assert (E : convert T (Range.Iterator._val it + Range.Iterator._pace it)
                = Range.Iterator._val it + Range.Iterator._pace it - modulus T).
    { apply (convert_unique T _ _ 1); unfold in_range in *; lia. }
    rewrite E. split; [split; lia|]. intros _. split; lia.
Qed.

Lemma incr_order_wraps_witness :
  in_range signed_char 120 /\ 0 < 10 < modulus signed_char
  /\ Range.Iterator._val (Range.Iterator.pre_incr signed_char (Range.Iterator.mk 120 10))
     = 120 + 10 - modulus signed_char.
Proof.
  split; [in_range_tac|]. split; [split; reflexivity|].
  apply (incr_order_wraps signed_char (Range.Iterator.mk 120 10));
    [in_range_tac|split; reflexivity|reflexivity].
Defined.

Section RangeArithmetic.
Variable T : IntegerType.

(** Values that stay between [start] and [end_] are never converted. *)
Lemma for_each_no_wrap (start end_ pace : Z) (k : nat) :
  in_range T start -> in_range T end_ -> pace <> 0 ->
  end_ = start + Z.of_nat k * pace ->
  forall fuel, (k < fuel)%nat ->
    Range.for_each T fuel (range start end_ pace)
    = Some ((fun j => start + Z.of_nat j * pace) <$> seq 0 k).
Proof.
  intros Hs He Hp Hk fuel Hfuel.
  assert (Hv : forall j, (j <= k)%nat ->
                 convert T (start + Z.of_nat j * pace) = start + Z.of_nat j * pace).
  { intros j Hj. apply convert_id. unfold in_range in *.
    destruct (Z.lt_trichotomy pace 0) as [Hneg|[H0|Hpos]]; [|contradiction|]; nia. }
  rewrite (for_each_exact T (range start end_ pace) k);
    cbn [range Range._start Range._end Range._pace]; auto.
  - f_equal. apply list_fmap_ext. intros i j Hj.
    apply lookup_seq in Hj as [-> Hj]. apply Hv. lia.
  - rewrite Hv by lia. lia.
  - intros j Hj. rewrite Hv by lia. nia.
Qed.

(** A pace, and the distance to cover, reach [end_] when the distance is
    a multiple of what the pace and the modulus have in common. *)
Lemma reaches_iff_gcd (start end_ pace : Z) :
  in_range T start -> in_range T end_ ->
  (exists k : nat, convert T (start + Z.of_nat k * pace) = end_)
  <-> (Z.gcd pace (modulus T) | end_ - start).
Proof.
  intros Hs He. pose proof (modulus_pos T) as HM.
  destruct (Z.gcd_divide_l pace (modulus T)) as [x Hx].
  destruct (Z.gcd_divide_r pace (modulus T)) as [y Hy].
  destruct (Z.gcd_bezout pace (modulus T) _ eq_refl) as (u & v & Huv).
  remember (Z.gcd pace (modulus T)) as g eqn:Hg. clear Hg.
  split.
  - intros (k & Hk). rewrite <- (convert_id T end_ He) in Hk.
    apply convert_eq_iff in Hk as [q Hq].
    exists (Z.of_nat k * x - q * y).
    replace (end_ - start) with (Z.of_nat k * pace - modulus T * q) by lia.
    rewrite Hx at 1. rewrite Hy at 1. ring.
  - intros [c Hc].
    exists (Z.to_nat ((u * c) mod modulus T)).
    pose proof (Z.mod_pos_bound (u * c) (modulus T) HM) as Hb.
    pose proof (Z.div_mod (u * c) (modulus T) ltac:(lia)) as Hdm.
    rewrite Z2Nat.id by lia.
    set (t := (u * c) / modulus T) in *. set (m := (u * c) mod modulus T) in *.
    apply (convert_unique T _ _ (- (c * v + t * pace)) He).
    replace m with (u * c - modulus T * t) by lia.
    replace end_ with (start + c * g) by lia.
    rewrite <- Huv. ring.
Qed.

Lemma gcd_odd_modulus (pace : Z) : Z.odd pace = true -> Z.gcd pace (modulus T) = 1.
Proof.
  intros Hodd. change (Z.coprime pace (modulus T)).
  unfold modulus. apply Z.coprime_pow_r; [destruct T; discriminate|].
  symmetry. apply Z.coprime_prime_l; [apply Z.prime_2|].
  intros [z Hz]. apply Z.odd_spec in Hodd as [w Hw]. lia.
Qed.
End RangeArithmetic.

(** X4: over values of its type, a range loop ends if and only if the
    distance [end - start] is a multiple of the greatest common divisor of
    the pace and [2 ^ bits]; so an odd pace always ends, and a zero pace
    ends only when [start] is [end]. *)
Theorem range_terminates_iff_gcd (T : IntegerType) (start end_ pace : Z) :
  in_range T start -> in_range T end_ ->
  (Range.terminates T (range start end_ pace)
   <-> (Z.gcd pace (modulus T) | end_ - start))
  /\ (Z.odd pace = true -> Range.terminates T (range start end_ pace))
  /\ (pace = 0 -> (Range.terminates T (range start end_ pace) <-> start = end_)).
Proof.
  intros Hs He.
  assert (Hiff : Range.terminates T (range start end_ pace)
                 <-> (Z.gcd pace (modulus T) | end_ - start)).
  { rewrite (terminates_iff T (range start end_ pace) Hs).
    apply (reaches_iff_gcd T start end_ pace Hs He). }
  split; [exact Hiff|]. split.
  - intros Hodd. apply Hiff. rewrite gcd_odd_modulus by assumption.
    apply Z.divide_1_l.
  - intros ->. rewrite Hiff. cbn [Z.gcd]. pose proof (modulus_pos T) as HM.
    rewrite Z.abs_eq by lia. split.
    + intros [c Hc]. unfold in_range in *.
      assert (Hwidth : max_value T = min_value T + modulus T - 1)
        by (destruct T; reflexivity).
      assert (c = 0) by nia. lia.
    + intros ->. exists 0. lia.
Qed.

Lemma range_terminates_iff_gcd_witness :
  in_range unsigned_char 0 /\ in_range unsigned_char 10
  /\ (Range.terminates unsigned_char (range 0 10 6)
      <-> (Z.gcd 6 (modulus unsigned_char) | 10 - 0)).
Proof.
  split; [in_range_tac|]. split; [in_range_tac|].
  apply (range_terminates_iff_gcd unsigned_char 0 10 6); in_range_tac.
Defined.

(** X5: when [end] is [start + k * pace] for some [k >= 0] and a non-zero
    pace of either sign, both ends being values of the type, the loop
    yields exactly the [k] values [start], [start + pace], ...,
    [end - pace], none of them converted. *)
Theorem range_exact_multiple (T : IntegerType) (start end_ pace : Z) (k : nat) :
  in_range T start -> in_range T end_ -> pace <> 0 ->
  end_ = start + Z.of_nat k * pace ->
  forall fuel, (k < fuel)%nat ->
    Range.for_each T fuel (range start end_ pace)
    = Some ((fun j => start + Z.of_nat j * pace) <$> seq 0 k).
Proof. apply for_each_no_wrap. Qed.

Lemma range_exact_multiple_witness :
  in_range int 10 /\ in_range int (-5) /\ -5 <> 0 /\ -5 = 10 + Z.of_nat 3 * -5
  /\ Range.for_each int 4 (range 10 (-5) (-5)) = Some [10; 5; 0].
Proof.
  split; [in_range_tac|]. split; [in_range_tac|]. split; [discriminate|].
  split; [reflexivity|].
  apply (range_exact_multiple int 10 (-5) (-5) 3);
    [in_range_tac|in_range_tac|discriminate|reflexivity|lia].
Defined.

(** X6: with a pace of one the loop always ends, after
    [(end - start) mod 2 ^ bits] turns: counting up to an [end] below
    [start] goes all the way round the type. *)
Theorem range_unit_pace_turns (T : IntegerType) (start end_ : Z) :
  in_range T start -> in_range T end_ ->
  forall fuel, (Z.to_nat ((end_ - start) mod modulus T) < fuel)%nat ->
    Range.for_each T fuel (range start end_ 1)
    = Some ((fun j => convert T (start + Z.of_nat j))
              <$> seq 0 (Z.to_nat ((end_ - start) mod modulus T))).
Proof.
  intros Hs He fuel Hfuel. pose proof (modulus_pos T) as HM.
  pose proof (Z.mod_pos_bound (end_ - start) (modulus T) HM) as Hb.
  pose proof (Z.div_mod (end_ - start) (modulus T) ltac:(lia)) as Hdm.
  set (m := (end_ - start) mod modulus T) in *.
  set (d := (end_ - start) / modulus T) in *.
  rewrite (for_each_exact T (range start end_ 1) (Z.to_nat m));
    cbn [range Range._start Range._end Range._pace]; auto.
  - f_equal. apply list_fmap_ext. intros i j _. f_equal. lia.
  - apply (convert_unique T _ _ (- d) He). rewrite Z2Nat.id by lia. lia.
  - intros j Hj E. rewrite <- (convert_id T end_ He) in E.
    apply convert_eq_iff in E as [q Hq].
    assert (q = - d) by nia. lia.
Qed.

Lemma range_unit_pace_turns_witness :
  in_range unsigned_char 250 /\ in_range unsigned_char 2
  /\ Range.for_each unsigned_char 9 (range 250 2 1)
     = Some [250; 251; 252; 253; 254; 255; 0; 1].
Proof.
  split; [in_range_tac|]. split; [in_range_tac|].
  apply (range_unit_pace_turns unsigned_char 250 2); [in_range_tac|in_range_tac|].
  vm_compute. lia.
Defined.

(** X7: [iter_range] over a sequence whose length is a value of
    [IntegerType] yields its indices [0 .. length - 1], and nothing for an
    empty sequence. *)
Theorem iter_range_yields_indices (T : IntegerType) {V : Type} (it : list V) :
  Z.of_nat (length it) <= max_value T ->
  forall fuel, (length it < fuel)%nat ->
    Range.for_each T fuel (iter_range T it) = Some (seqZ 0 (Z.of_nat (length it))).
Proof.
  intros Hlen fuel Hfuel.
  assert (Hmin : min_value T <= 0 <= max_value T) by (destruct T; in_range_tac).
  assert (Hin : in_range T (Z.of_nat (length it))) by (unfold in_range; lia).
  unfold iter_range, Range.of_iterable. rewrite (convert_id T _ Hin).
  change (Range.mk 0 (Z.of_nat (length it)) 1) with (range 0 (Z.of_nat (length it)) 1).
  rewrite (for_each_no_wrap T 0 (Z.of_nat (length it)) 1 (length it));
    [|exact Hmin|exact Hin|lia|lia|exact Hfuel].
  f_equal. unfold seqZ. rewrite Nat2Z.id. apply list_fmap_ext. intros i j _. lia.
Qed.

Lemma iter_range_yields_indices_witness :
  Z.of_nat (length ["a"; "b"; "c"]%string) <= max_value unsigned_char
  /\ Range.for_each unsigned_char 4 (iter_range unsigned_char ["a"; "b"; "c"]%string)
     = Some [0; 1; 2].
Proof.
  split; [vm_compute; discriminate|].
  apply (iter_range_yields_indices unsigned_char ["a"; "b"; "c"]%string);
    [vm_compute; discriminate|cbn; lia].
Defined.

Section RangeDistinct.
Variable T : IntegerType.
Variable r : Range.t.
Hypothesis start_in_range : in_range T (Range._start r).

(** Before the loop ends no value comes twice: a repetition would have
    brought [_end] round earlier. *)
Lemma values_before_end_differ (k i j : nat) :
  convert T (Range._start r + Z.of_nat k * Range._pace r) = Range._end r ->
  (forall n, (n < k)%nat ->
     convert T (Range._start r + Z.of_nat n * Range._pace r) <> Range._end r) ->
  (i < j)%nat -> (j < k)%nat ->
  convert T (Range._start r + Z.of_nat i * Range._pace r)
  <> convert T (Range._start r + Z.of_nat j * Range._pace r).
Proof.
  intros Hend Hne Hij Hjk E. apply convert_eq_iff in E as [q Hq].
  apply (Hne (k - (j - i))%nat); [lia|].
  rewrite <- Hend. apply convert_eq_iff. exists q.
  rewrite Nat2Z.inj_sub, Nat2Z.inj_sub by lia. nia.
Qed.

Lemma for_each_distinct (fuel : nat) (l : list Z) :
  Range.for_each T fuel r = Some l ->
  NoDup l
  /\ Forall (in_range T) l
  /\ (Range._end r ∉ l)
  /\ Z.of_nat (length l) < modulus T
  /\ forall fuel', (length l < fuel')%nat -> Range.for_each T fuel' r = Some l.
Proof.
  intros H. apply (for_each_Some T fuel r l start_in_range) in H
    as (Hl & _ & Hend & Hne).
  set (f := fun j : nat => convert T (Range._start r + Z.of_nat j * Range._pace r)) in *.
  assert (Hlook : forall i x, l !! i = Some x -> (i < length l)%nat /\ x = f i).
  { intros i x Hi. rewrite Hl, list_lookup_fmap in Hi.
    destruct (seq 0 (length l) !! i) as [n|] eqn:Hn; [|discriminate].
    apply lookup_seq in Hn as [-> Hn]. cbn in Hi. injection Hi as <-. auto. }
  assert (Hnodup : NoDup l).
  { apply NoDup_alt. intros i j x Hi Hj.
    apply Hlook in Hi as [Hi ->]. apply Hlook in Hj as [Hj E].
    destruct (Nat.lt_trichotomy i j) as [Hlt|[->|Hlt]]; [|reflexivity|].
    - now apply (values_before_end_differ (length l) i j Hend Hne Hlt Hj) in E.
    - symmetry in E.
      now apply (values_before_end_differ (length l) j i Hend Hne Hlt Hi) in E. }
  assert (Hrange : Forall (in_range T) l).
  { apply Forall_lookup. intros i x Hi. apply Hlook in Hi as [_ ->].
    apply convert_in_range. }
  assert (Hnotin : Range._end r ∉ l).
  { intros Hin. apply list_elem_of_lookup in Hin as [i Hi].
    apply Hlook in Hi as [Hi E]. now apply (Hne i Hi). }
  split; [exact Hnodup|]. split; [exact Hrange|]. split; [exact Hnotin|]. split.
  - assert (Hsub : (Range._end r :: l) ⊆+ seqZ (min_value T) (modulus T)).
    { apply NoDup_submseteq; [now apply NoDup_cons|].
      intros x Hx. apply elem_of_seqZ.
      assert (Hwidth : max_value T = min_value T + modulus T - 1)
        by (destruct T; reflexivity).
      assert (Hx' : in_range T x).
      { apply elem_of_cons in Hx as [->|Hx].
        - rewrite <- Hend. apply convert_in_range.
        - rewrite Forall_forall in Hrange. now apply Hrange. }
      unfold in_range in Hx'. lia. }
    apply submseteq_length in Hsub. rewrite length_seqZ in Hsub. cbn in Hsub.
    pose proof (modulus_pos T). lia.
  - intros fuel' Hfuel'.
    rewrite (for_each_exact T r (length l) start_in_range Hend Hne fuel' Hfuel').
    f_equal. symmetry. exact Hl.
Qed.
End RangeDistinct.

(** X8: a range loop that ends has read pairwise distinct values of the
    type, [end] not among them, so fewer than [2 ^ bits] of them, and any
    larger amount of fuel gives the same result; whether a loop ends is
    therefore settled by running it for [2 ^ bits] turns. *)
Theorem range_loop_is_bounded (T : IntegerType) (r : Range.t) :
  in_range T (Range._start r) ->
  (forall fuel l,
     Range.for_each T fuel r = Some l ->
     NoDup l
     /\ Forall (in_range T) l
     /\ (Range._end r ∉ l)
     /\ Z.of_nat (length l) < modulus T
     /\ forall fuel', (length l < fuel')%nat -> Range.for_each T fuel' r = Some l)
  /\ (Range.terminates T r
      <-> is_Some (Range.for_each T (Z.to_nat (modulus T)) r)).
Proof.
  intros Hs. split; [intros fuel l; apply (for_each_distinct T r Hs)|].
  split; [|intros H; now exists (Z.to_nat (modulus T))].
  intros (fuel & l & H).
  destruct (for_each_distinct T r Hs fuel l H) as (_ & _ & _ & Hlen & Hfuel).
  exists l. apply Hfuel. lia.
Qed.

Lemma range_loop_is_bounded_witness :
  in_range unsigned_char 0
  /\ (Range.terminates unsigned_char (range 0 5 2)
      <-> is_Some (Range.for_each unsigned_char (Z.to_nat (modulus unsigned_char))
                     (range 0 5 2))).
Proof.
  split; [in_range_tac|].
  apply (range_loop_is_bounded unsigned_char (range 0 5 2)). in_range_tac.
Defined.

(** * Further properties of [zip.hpp] *)

Section ZipBeginEnd.
Import Zip.

Lemma get_begin_pack {A Args} (i : index A Args) :
  forall (cs : type_extractor_tuple container Args) (begin_it : zip_iterator Args),
    get i (begin_pack Args cs begin_it) = c_begin A (get i cs).
Proof. induction i as [B|A' B i IH]; intros cs begin_it; cbn; [reflexivity|apply IH]. Qed.

Lemma get_end_pack {A Args} (i : index A Args) :
  forall (cs : type_extractor_tuple container Args) (end_it : zip_iterator Args),
    get i (end_pack Args cs end_it) = c_end A (get i cs).
Proof. induction i as [B|A' B i IH]; intros cs end_it; cbn; [reflexivity|apply IH]. Qed.

Lemma begin_pack_any (Args : list Iterable) :
  forall (cs : type_extractor_tuple container Args) (it1 it2 : zip_iterator Args),
    begin_pack Args cs it1 = begin_pack Args cs it2.
Proof.
  induction Args as [|A B IH]; intros cs it1 it2; cbn.
  - now destruct it1, it2.
  - f_equal. apply IH.
Qed.

Lemma end_pack_any (Args : list Iterable) :
  forall (cs : type_extractor_tuple container Args) (it1 it2 : zip_iterator Args),
    end_pack Args cs it1 = end_pack Args cs it2.
Proof.
  induction Args as [|A B IH]; intros cs it1 it2; cbn.
  - now destruct it1, it2.
  - f_equal. apply IH.
Qed.
End ZipBeginEnd.

(** X9: for any wrapped containers, component [i] of [begin()] is
    [begin()] of container [i] and component [i] of [end()] is its
    [end()]; nothing of the default-constructed iterator they start from
    is left in the result. *)
Theorem zip_begin_end_components (Args : list Zip.Iterable) (z : Zip.zip_impl Args) :
  (forall A (i : Zip.index A Args),
     Zip.get i (Zip.begin z) = Zip.c_begin A (Zip.get i (Zip.containers z)))
  /\ (forall A (i : Zip.index A Args),
        Zip.get i (Zip.end_ z) = Zip.c_end A (Zip.get i (Zip.containers z)))
  /\ (forall it : Zip.zip_iterator Args,
        Zip.begin_pack Args (Zip.containers z) it = Zip.begin z
        /\ Zip.end_pack Args (Zip.containers z) it = Zip.end_ z).
Proof.
  split; [intros A i; apply get_begin_pack|].
  split; [intros A i; apply get_end_pack|].
  intros it. split; [apply begin_pack_any|apply end_pack_any].
Qed.

Section ZipVectorSteps.
Import Zip.
Variable Vs : list Type.

Lemma positions_inj (a b : zip_iterator (vectors Vs)) :
  positions Vs a = positions Vs b -> a = b.
Proof.
  induction Vs as [|V Vs' IH]; cbn in *.
  - now destruct a, b.
  - destruct a as [p a], b as [q b]. cbn. intros H. injection H as -> H.
    f_equal. now apply IH.
Qed.

Lemma positions_pre_decr (it : zip_iterator (vectors Vs)) :
  positions Vs (pre_decr it) = (fun p => p - 1) <$> positions Vs it.
Proof.
  unfold pre_decr. induction Vs as [|V Vs' IH]; cbn; [reflexivity|].
  now rewrite IH.
Qed.

Lemma positions_iter_pre_decr (k : nat) (it : zip_iterator (vectors Vs)) :
  positions Vs (Nat.iter k pre_decr it) = (fun p => p - Z.of_nat k) <$> positions Vs it.
Proof.
  induction k as [|k IH].
  - cbn. rewrite <- (list_fmap_id (positions Vs it)) at 1.
    apply list_fmap_ext. intros i p _. unfold id. lia.
  - rewrite Nat.iter_succ, positions_pre_decr, IH, <- list_fmap_compose.
    apply list_fmap_ext. intros i p _. cbn. lia.
Qed.

Lemma positions_minus_eq (it : zip_iterator (vectors Vs)) (n : N) :
  positions Vs (minus_eq it n) = (fun p => p - Z.of_N n) <$> positions Vs it.
Proof.
  rewrite minus_eq_iter, positions_iter_pre_decr.
  apply list_fmap_ext. intros i p _. lia.
Qed.

Lemma eq_pack_sym (a b : zip_iterator (vectors Vs)) :
  eq_pack (vectors Vs) a b = eq_pack (vectors Vs) b a.
Proof.
  induction Vs as [|V Vs' IH]; cbn; [reflexivity|].
  now rewrite Z.eqb_sym, IH.
Qed.

End ZipVectorSteps.

Lemma convert_ptrdiff_small (n : N) :
  Z.of_N n <= max_value ptrdiff_t -> convert ptrdiff_t (Z.of_N n) = Z.of_N n.
Proof.
  intros Hn. apply convert_id. split; [|exact Hn].
  transitivity 0; [discriminate|apply N2Z.is_nonneg].
Qed.

(** X10: on iterators into vectors, [+= n] moves every position by [n]
    converted to the iterators' [difference_type], so an [n] that is a
    value of that type adds [n] and [2 ^ 64 - 1] is one step backwards;
    [-= n] subtracts [n] from every position; neither checks the bounds
    of a vector.  The prefix decrement undoes the prefix increment; for
    offsets that are values of [difference_type], [-= n] undoes [+= n]
    and the other way round, and two offset steps add up. *)
Theorem zip_vector_offsets (Vs : list Type) (it : Zip.zip_iterator (Zip.vectors Vs))
    (a b : N) :
  Z.of_N a + Z.of_N b <= max_value ptrdiff_t ->
  (forall n : N,
     Zip.positions Vs (Zip.plus_eq it n)
     = (fun p => p + convert ptrdiff_t (Z.of_N n)) <$> Zip.positions Vs it)
  /\ Zip.positions Vs (Zip.plus_eq it a) = (fun p => p + Z.of_N a) <$> Zip.positions Vs it
  /\ Zip.positions Vs (Zip.plus_eq it (2 ^ 64 - 1))
     = (fun p => p - 1) <$> Zip.positions Vs it
  /\ (forall n : N,
        Zip.positions Vs (Zip.minus_eq it n)
        = (fun p => p - Z.of_N n) <$> Zip.positions Vs it)
  /\ Zip.minus_eq (Zip.plus_eq it a) a = it
  /\ Zip.plus_eq (Zip.minus_eq it a) a = it
  /\ Zip.pre_decr (Zip.pre_incr it) = it
  /\ Zip.plus_eq (Zip.plus_eq it a) b = Zip.plus_eq it (a + b).
Proof.
  intros Hab.
  assert (Ha : convert ptrdiff_t (Z.of_N a) = Z.of_N a)
    by (apply convert_ptrdiff_small; lia).
  assert (Hb : convert ptrdiff_t (Z.of_N b) = Z.of_N b)
    by (apply convert_ptrdiff_small; lia).
  assert (Hsum : convert ptrdiff_t (Z.of_N (a + b)) = Z.of_N a + Z.of_N b)
    by (rewrite convert_ptrdiff_small; lia).
  split; [intros n; apply positions_plus_eq|].
  split; [now rewrite positions_plus_eq, Ha|].
  split; [rewrite positions_plus_eq; apply list_fmap_ext; intros i p _;
          change (convert ptrdiff_t (Z.of_N (2 ^ 64 - 1))) with (-1); lia|].
  split; [intros n; apply positions_minus_eq|].
  split; [|split; [|split]]; apply positions_inj.
  - rewrite positions_minus_eq, positions_plus_eq, Ha, <- list_fmap_compose.
    rewrite <- (list_fmap_id (Zip.positions Vs it)) at 2.
    apply list_fmap_ext. intros i p _. unfold id. cbn. lia.
  - rewrite positions_plus_eq, positions_minus_eq, Ha, <- list_fmap_compose.
    rewrite <- (list_fmap_id (Zip.positions Vs it)) at 2.
    apply list_fmap_ext. intros i p _. unfold id. cbn. lia.
  - unfold Zip.pre_incr.
    rewrite positions_pre_decr, positions_plus_eq, <- list_fmap_compose.
    rewrite <- (list_fmap_id (Zip.positions Vs it)) at 2.
    apply list_fmap_ext. intros i p _. unfold id, compose.
    change (convert ptrdiff_t (Z.of_N 1)) with 1. lia.
  - rewrite !positions_plus_eq, Ha, Hb, Hsum, <- list_fmap_compose.
    apply list_fmap_ext. intros i p _. cbn. lia.
Qed.

Lemma zip_vector_offsets_witness :
  Z.of_N 2 + Z.of_N 3 <= max_value ptrdiff_t
  /\ @Zip.minus_eq (Zip.vectors [nat : Type; bool : Type])
       (@Zip.plus_eq (Zip.vectors [nat : Type; bool : Type]) (4, (1, tt)) 2) 2
     = (4, (1, tt))
  /\ @Zip.plus_eq (Zip.vectors [nat : Type; bool : Type])
       (@Zip.plus_eq (Zip.vectors [nat : Type; bool : Type]) (4, (1, tt)) 2) 3
     = @Zip.plus_eq (Zip.vectors [nat : Type; bool : Type]) (4, (1, tt)) (2 + 3).
Proof.
  assert (H : Z.of_N 2 + Z.of_N 3 <= max_value ptrdiff_t) by discriminate.
  split; [exact H|].
  destruct (zip_vector_offsets [nat : Type; bool : Type] (4, (1, tt)) 2 3 H)
    as (_ & _ & _ & _ & Hround & _ & _ & Hadd).
  split; [exact Hround|exact Hadd].
Defined.

(** X11: on iterators into at least one vector, [==] is reflexive and
    symmetric, and holds whenever all the positions agree; it is not
    transitive. *)
Theorem zip_eq_not_transitive (Vs : list Type) (a b : Zip.zip_iterator (Zip.vectors Vs)) :
  Vs <> [] ->
  Zip.eq a a = true
  /\ Zip.eq a b = Zip.eq b a
  /\ (Zip.positions Vs a = Zip.positions Vs b -> Zip.eq a b = true)
  /\ exists x y z : Zip.zip_iterator (Zip.vectors [nat : Type; nat : Type]),
       Zip.eq x y = true /\ Zip.eq y z = true /\ Zip.eq x z = false.
Proof.
  intros HVs.
  assert (Hrefl : forall c : Zip.zip_iterator (Zip.vectors Vs), Zip.eq c c = true).
  { intros c. unfold Zip.eq. destruct Vs as [|V Vs']; [congruence|].
    cbn. now rewrite Z.eqb_refl. }
  split; [apply Hrefl|]. split; [apply eq_pack_sym|]. split.
  - intros H. apply positions_inj in H as ->. apply Hrefl.
  - exists (0, (1, tt)), (0, (2, tt)), (3, (2, tt)). repeat split.
Qed.

Lemma zip_eq_not_transitive_witness :
  [nat : Type; bool : Type] <> []
  /\ @Zip.eq (Zip.vectors [nat : Type; bool : Type]) (4, (7, tt)) (4, (7, tt)) = true.
Proof.
  split; [discriminate|].
  destruct (zip_eq_not_transitive [nat : Type; bool : Type] (4, (7, tt)) (4, (7, tt))
              ltac:(discriminate)) as [H _].
  exact H.
Defined.

(** X12: the private [!=] member template, the conjunction of the
    sub-iterators' own [!=] that no member calls, gives the same answer
    as the public [!=] whenever each sub-iterator's [!=] is the negation
    of its [==], as it is for iterators into vectors. *)
Theorem private_ne_agrees (Args : list Zip.Iterable) (a b : Zip.zip_iterator Args) :
  Forall (fun A => forall x y, Zip.it_ne A x y = negb (Zip.it_eq A x y)) Args ->
  Zip.ne_pack Args a b = Zip.ne a b.
Proof.
  unfold Zip.ne. induction Args as [|A B IH]; cbn; intros H; [reflexivity|].
  apply Forall_cons in H as [HA HB].
  rewrite HA, negb_orb. f_equal. now apply IH.
Qed.

Lemma private_ne_agrees_witness :
  Forall (fun A => forall x y, Zip.it_ne A x y = negb (Zip.it_eq A x y))
    (Zip.vectors [nat : Type; bool : Type])
  /\ Zip.ne_pack (Zip.vectors [nat : Type; bool : Type]) (1, (5, tt)) (2, (5, tt))
     = @Zip.ne (Zip.vectors [nat : Type; bool : Type]) (1, (5, tt)) (2, (5, tt)).
Proof.
  assert (H : Forall (fun A => forall x y, Zip.it_ne A x y = negb (Zip.it_eq A x y))
                (Zip.vectors [nat : Type; bool : Type])).
  { repeat constructor. }
  split; [exact H|].
  apply (private_ne_agrees (Zip.vectors [nat : Type; bool : Type])
           (1, (5, tt)) (2, (5, tt)) H).
Defined.

Section ZipPairs.
Import Zip.
Variables A B : Type.

(** The references a loop over two vectors hands to its body. *)
Lemma for_each_pair (la : list A) (lb : list B) (fuel : nat) :
  (min (length la) (length lb) < fuel)%nat ->
  @for_each (vectors [A; B]) fuel (@zip (vectors [A; B]) (la, (lb, tt)))
  = Some ((fun k : nat => (Z.of_nat k, (Z.of_nat k, tt)))
            <$> seq 0 (min (length la) (length lb))).
Proof.
  intros Hfuel.
  assert (Hmin : min_list (sizes [A; B] (la, (lb, tt))) = min (length la) (length lb))
    by (cbn; lia).
  destruct (drive_to_shortest [A; B] (la, (lb, tt)) ltac:(discriminate)
              (min (length la) (length lb)) 0 fuel
              (begin (@zip (vectors [A; B]) (la, (lb, tt)))))
    as (refs & Hd & Hr); [lia|reflexivity|lia|].
  unfold for_each. rewrite Hd. f_equal.
  apply list_eq. intros i. rewrite list_lookup_fmap.
  assert (E : (designated [A; B] <$> refs) !! i
              = ((fun k : nat => replicate 2 (Z.of_nat k))
                   <$> seq 0 (min (length la) (length lb))) !! i)
    by now rewrite Hr.
  rewrite !list_lookup_fmap in E.
  destruct (refs !! i) as [r|], (seq 0 (min (length la) (length lb)) !! i) as [k|];
    cbn in *; try discriminate; [|reflexivity].
  destruct r as [p [q []]]. cbn in E. now injection E as -> ->.
Qed.

Lemma for_each_values_pair (la : list A) (lb : list B) (fuel : nat) :
  (min (length la) (length lb) < fuel)%nat ->
  @for_each_values (vectors [A; B]) fuel (@zip (vectors [A; B]) (la, (lb, tt)))
  = Some ((fun p : A * B => (p.1, (p.2, tt))) <$> base.zip la lb).
Proof.
  intros Hfuel. unfold for_each_values. rewrite (for_each_pair la lb fuel Hfuel).
  apply mapM_Some, Forall2_same_length_lookup_2.
  - rewrite !length_fmap, length_seq, length_zip_with. reflexivity.
  - intros i r v Hr Hv.
    rewrite list_lookup_fmap in Hr.
    destruct (seq 0 (min (length la) (length lb)) !! i) as [k|] eqn:Hk; [|discriminate].
    apply lookup_seq in Hk as [-> Hk]. cbn in Hr. injection Hr as <-.
    rewrite list_lookup_fmap in Hv.
    destruct (base.zip la lb !! i) as [[a b]|] eqn:Hz; [|discriminate].
    cbn in Hv. injection Hv as <-.
    apply lookup_zip_with_Some in Hz as (a' & b' & E & Ha & Hb).
    injection E as <- <-.
    cbn. destruct (Z.leb_spec 0 (Z.of_nat i)); [|lia].
    now rewrite Nat2Z.id, Ha, Hb.
Qed.
End ZipPairs.

(** X13: a loop over [zip(a, b)] of two vectors that reads the tuples it
    receives yields the pairs [(a[i], b[i])] for [i] below the smaller
    size, the list that pairing [a] and [b] element by element gives; for
    vectors of one size these are as many tuples as each has elements,
    and an empty vector leaves no tuple. *)
Theorem zip_pairs_elementwise (A B : Type) (la : list A) (lb : list B) (fuel : nat) :
  (min (length la) (length lb) < fuel)%nat ->
  @Zip.for_each_values (Zip.vectors [A; B]) fuel (@Zip.zip (Zip.vectors [A; B]) (la, (lb, tt)))
  = Some ((fun p : A * B => (p.1, (p.2, tt))) <$> base.zip la lb)
  /\ (length la = length lb ->
      length <$> @Zip.for_each_values (Zip.vectors [A; B]) fuel (@Zip.zip (Zip.vectors [A; B]) (la, (lb, tt)))
      = Some (length la))
  /\ (la = [] \/ lb = [] ->
      @Zip.for_each_values (Zip.vectors [A; B]) fuel (@Zip.zip (Zip.vectors [A; B]) (la, (lb, tt))) = Some []).
Proof.
  intros Hfuel. rewrite (for_each_values_pair A B la lb fuel Hfuel).
  split; [reflexivity|]. split.
  - intros Hlen. cbn. rewrite length_fmap, length_zip_with. f_equal. lia.
  - intros [->| ->]; [reflexivity|]. now destruct la.
Qed.

Lemma zip_pairs_elementwise_witness :
  (min (length [1; 2; 3]%nat) (length [true; false]) < 3)%nat
  /\ @Zip.for_each_values (Zip.vectors [nat : Type; bool : Type]) 3
       (@Zip.zip (Zip.vectors [nat : Type; bool : Type])
          ([1; 2; 3]%nat, ([true; false], tt)))
     = Some [(1%nat, (true, tt)); (2%nat, (false, tt))].
Proof.
  split; [cbn; lia|].
  destruct (zip_pairs_elementwise nat bool [1; 2; 3]%nat [true; false] 3
              ltac:(cbn; lia)) as [H _].
  exact H.
Defined.

Section ZipAssign.
Import Zip.

Lemma end_pack_set {V : Type} {Args} (i : index (std_vector V) Args) :
  forall (cs : type_extractor_tuple container Args) (c' : list V)
         (end_it : zip_iterator Args),
    length c' = length (get i cs) ->
    end_pack Args (set i c' cs) end_it = end_pack Args cs end_it.
Proof.
  induction i as [B|A' B i IH]; intros cs c' end_it Hlen; cbn in *.
  - now rewrite Hlen.
  - f_equal. now apply IH.
Qed.

Lemma begin_pack_set {V : Type} {Args} (i : index (std_vector V) Args) :
  forall (cs : type_extractor_tuple container Args) (c' : list V)
         (begin_it : zip_iterator Args),
    begin_pack Args (set i c' cs) begin_it = begin_pack Args cs begin_it.
Proof.
  induction i as [B|A' B i IH]; intros cs c' begin_it; cbn in *; [reflexivity|].
  f_equal. apply IH.
Qed.

Lemma assign_vector_inv {V : Type} {Args} (i : index (std_vector V) Args)
    (refs : reference_tuple Args) (v : V)
    (cs cs' : type_extractor_tuple container Args) :
  assign i refs v cs = Some cs' ->
  exists c', cs' = set i c' cs /\ length c' = length (get i cs).
Proof.
  unfold assign. cbn [ref_store std_vector].
  destruct (_ && _); [|discriminate]. intros H. injection H as <-.
  eexists. split; [reflexivity|]. apply length_insert.
Qed.
End ZipAssign.

(** X15: an assignment through an element of a dereferenced tuple changes
    no size: [begin()] and [end()] of the zip are what they were, and a
    loop over the zip makes the same turns and receives the same
    references after the assignment as before. *)
Theorem zip_assign_keeps_bounds (Args : list Zip.Iterable) (V : Type)
    (i : Zip.index (Zip.std_vector V) Args) (refs : Zip.reference_tuple Args) (v : V)
    (cs cs' : Zip.type_extractor_tuple Zip.container Args) :
  Zip.assign i refs v cs = Some cs' ->
  length (Zip.get i cs') = length (Zip.get i cs)
  /\ Zip.begin (Zip.zip cs') = Zip.begin (Zip.zip cs)
  /\ Zip.end_ (Zip.zip cs') = Zip.end_ (Zip.zip cs)
  /\ forall fuel, Zip.for_each fuel (Zip.zip cs') = Zip.for_each fuel (Zip.zip cs).
Proof.
  intros H. apply assign_vector_inv in H as (c' & -> & Hlen).
  assert (Hb : Zip.begin (Zip.zip (Zip.set i c' cs)) = Zip.begin (Zip.zip cs))
    by apply begin_pack_set.
  assert (He : Zip.end_ (Zip.zip (Zip.set i c' cs)) = Zip.end_ (Zip.zip cs))
    by now apply end_pack_set.
  split; [now rewrite get_set|]. split; [exact Hb|]. split; [exact He|].
  intros fuel. unfold Zip.for_each. now rewrite Hb, He.
Qed.

Lemma zip_assign_keeps_bounds_witness :
  @Zip.assign (Zip.std_vector nat) (Zip.vectors [nat : Type; bool : Type])
    (Zip.index_here _) (1, (1, tt)) 99%nat ([10; 20; 30]%nat, ([true; false], tt))
  = Some ([10; 99; 30]%nat, ([true; false], tt))
  /\ Zip.end_ (@Zip.zip (Zip.vectors [nat : Type; bool : Type])
                 ([10; 99; 30]%nat, ([true; false], tt)))
     = Zip.end_ (@Zip.zip (Zip.vectors [nat : Type; bool : Type])
                   ([10; 20; 30]%nat, ([true; false], tt))).
Proof.
  split; [reflexivity|].
  apply (zip_assign_keeps_bounds (Zip.vectors [nat : Type; bool : Type]) nat
           (Zip.index_here _) (1, (1, tt)) 99%nat
           ([10; 20; 30]%nat, ([true; false], tt))
           ([10; 99; 30]%nat, ([true; false], tt)) eq_refl).
Defined.
